(** * Generative agents: memory stream and interaction coordinator

    A shallow embedding of
    - [core/typescript/src/agent.ts]                      (class [Agent], [observe]),
    - [examples/phaser/src/services/interactionService.ts]
      (class [InteractionService], exported as [interactionService]),
    - [examples/phaser/src/phaserClasses/AgentCharacter.ts]
      ([checkForInteractions], [showSpeechBubble]).

    Asynchronous methods are run to completion one after the other: every
    [await] is a call to the outside world whose answer is read from an
    oracle.  The outside world is
    - the agent's [engine] (scoring, embedding, text generation), whose
      calls may be rejected,
    - the clock ([Date.now()], [new Date()]),
    - [Math.random()].
    Every call to the outside world is appended to the [trace] of the
    world; the oracle is indexed by the number of calls made so far, so that
    the same request may be answered differently at different moments.
    Two asynchronous methods are never interleaved here, and what is
    written to the console is left out.  Strings are kept as the bytes of
    their UTF-8 encoding. *)

From Stdlib Require Import ZArith QArith Qpower Lia Ascii String List SpecFloat.
From stdpp Require Import base option list gmap strings pretty sorting.

Open Scope nat_scope.
Open Scope string_scope.
Open Scope list_scope.
Open Scope stdpp_scope.

(** ** Data model of [agent.ts] *)

(** JavaScript numbers that are only stored, compared with a constant or
    handed over (scores, vector components, random draws, reliabilities)
    are rationals; millisecond timestamps are integers; the per-kind
    counters, which start at [0] and only ever grow by [1], are naturals. *)

Record AgentPersonality := {
  background : string;
  innateTendency : list string;
  learnedTendency : list string;
  currentGoal : string;
  lifestyle : string;
  values : list string
}.

Record AgentSettings := {
  visualRange : Q;
  attention : Q;
  retention : Q
}.

Record Action := {
  status : string;
  emoji : list string
}.

Inductive MemoryType := OBSERVATION | REFLECTION | PLAN | CONVERSATION.

Module BaseMemory.
Record t := mk {
  id : string;
  createdAt : string;
  description : string;
  importance : Q;
  latestAccess : string;
  embedding : list Q
}.
End BaseMemory.

Inductive Granularity := DAY | HOUR | MINUTE.

(** [type Memory = Observation | Reflection | Plan | Conversation] *)
Inductive Memory :=
| Observation (b : BaseMemory.t)
| Reflection (b : BaseMemory.t) (evidence : list string)
| Plan (b : BaseMemory.t) (iteration : Q) (granularity : Granularity)
       (start finish : Q) (parent : list string)
| Conversation (b : BaseMemory.t).

Definition base (m : Memory) : BaseMemory.t :=
  match m with
  | Observation b | Reflection b _ | Plan b _ _ _ _ _ | Conversation b => b
  end.

Definition memoryType (m : Memory) : MemoryType :=
  match m with
  | Observation _ => OBSERVATION
  | Reflection _ _ => REFLECTION
  | Plan _ _ _ _ _ _ => PLAN
  | Conversation _ => CONVERSATION
  end.

Record MemoryCount := {
  observation : nat;
  reflection : nat;
  plan : nat;
  conversation : nat
}.

(** Agents are objects: they live in a heap and are passed by reference. *)
Definition ref := nat.

(** The engine is not part of the sources at hand.  Each of its methods
    returns a promise; [None] is a rejected promise.  The first argument is
    the moment of the call (the number of calls made to the outside world
    before it). *)
Record AgentEngine := {
  getImportanceScore : nat -> string -> option Q;
  getEmbedding : nat -> string -> option (list Q);
  reply : nat -> string -> ref -> string -> option string
}.

Module Agent.
Record t := mk {
  engine : AgentEngine;
  id : string;
  name : string;
  age : Q;
  personality : AgentPersonality;
  settings : AgentSettings;
  memoryStream : list Memory;
  memoryCount : MemoryCount;
  latestPlanIteration : nat;
  action : Action;
  location : list string
}.
End Agent.

(** The constructor of [Agent]. *)
Definition defaultSettings : AgentSettings :=
  {| attention := 8; retention := 8; visualRange := 8 |}.

Definition newAgent (engine : AgentEngine) (id name : string) (age : Q)
    (personality : AgentPersonality) (settings : AgentSettings)
    (location : list string) : Agent.t :=
  {| Agent.engine := engine;
     Agent.id := id;
     Agent.name := name;
     Agent.age := age;
     Agent.personality := personality;
     Agent.settings := settings;
     Agent.memoryStream := [];
     Agent.memoryCount :=
       {| observation := 0; reflection := 0; plan := 0; conversation := 0 |};
     Agent.latestPlanIteration := 1;
     Agent.action := {| status := "sleeping"; emoji := ["😴"] |};
     Agent.location := location |}.

(** ** Data model of the interaction service *)

Inductive InteractionType := conversation_ | observation_ | rumor_.

Module Interaction.
Record t := mk {
  id : string;
  initiatorId : string;
  targetId : string;
  type : InteractionType;
  content : string;
  timestamp : Z
}.
End Interaction.

Inductive SourceType := direct | observed | rumor.

(** The service's own [Memory] interface: what one agent is recorded to
    know about another. *)
Module ServiceMemory.
Record t := mk {
  agentId : string;
  content : string;
  timestamp : Z;
  source : string;
  type : SourceType;
  reliability : Q
}.
End ServiceMemory.

(** ** Data model of [AgentCharacter] *)

(** The coordinates of a position enter a computation: they are IEEE 754
    doubles (binary64: [53] bits of precision, exponents below [1024]),
    with the operations of the Standard Library's specification of
    floating-point arithmetic, each of them rounding to nearest, ties to
    even.  [NaN], the two infinities and the two zeros are values like the
    others. *)
Module Double.
Definition prec : Z := 53.
Definition emax : Z := 1024.
Definition t : Type := spec_float.


Definition sub : t -> t -> t := SFsub prec emax.
Definition add : t -> t -> t := SFadd prec emax.
Definition mul : t -> t -> t := SFmul prec emax.
Definition sqrt : t -> t := SFsqrt prec emax.

(** [a <= b]: [false] when one of the two is [NaN]. *)
Definition leb : t -> t -> bool := SFleb.

(** [Math.pow(d, 2)]: for the exponent [2] the result is the product
    [d * d], rounded once. *)
Definition square (d : t) : t := mul d d.

(** The double nearest to an integer: the integer itself when it is below
    [2 ^ 53] in magnitude. *)
Definition ofZ (z : Z) : t := binary_normalize prec emax z 0 false.

(** Neither [NaN] nor an infinity. *)
Definition isFinite (d : t) : bool :=
  match d with
  | S754_zero _ | S754_finite _ _ _ => true
  | S754_infinity _ | S754_nan => false
  end.

(** The number that a finite double stands for. *)
Definition exact (d : t) : option Q :=
  match d with
  | S754_zero _ => Some 0%Q
  | S754_finite s m e =>
      Some ((if s then - inject_Z (Zpos m) else inject_Z (Zpos m)) * 2 ^ e)%Q
  | S754_infinity _ | S754_nan => None
  end.
End Double.

Record Position := { x : Double.t; y : Double.t }.

(** Of the speech bubble only the text and the visibility are kept; the
    drawing and the timer that hides it again are left out. *)
Record SpeechBubble := { text : string; visible : bool }.

Module AgentCharacter.
Record t := mk {
  agent : ref;
  position : Position;
  lastInteractionTime : Z;
  speechBubble : option SpeechBubble
}.
End AgentCharacter.

(** ** The world

    [agents] and [characters] are the heaps of [Agent] and [AgentCharacter]
    objects, [interactions] and [memories] the two private fields of the
    interaction service, [scene] the array [scene.characters] (which the
    character checks for being defined). *)

Inductive Call :=
| GetImportanceScore (description : string)
| GetEmbedding (description : string)
| Reply (message : string) (agent : ref) (context : string)
| DateNow
| MathRandom.

Record World := {
  agents : gmap ref Agent.t;
  interactions : list Interaction.t;
  memories : gmap string (list ServiceMemory.t);
  characters : gmap ref AgentCharacter.t;
  scene : option (list ref);
  trace : list Call
}.

(** The clock and the random source, and two functions that are not part
    of the sources at hand: [dateToString] of [helpers.ts], and the
    rendering [n.toString(36).slice(2, 9)] of a random draw. *)
Record Env := {
  clock : nat -> Z;
  random : nat -> Q;
  dateToString : Z -> string;
  toString36 : Q -> string
}.

(** ** Exceptions and state

    What is thrown is named after its origin: a rejected request for a
    score or an embedding is [ScoringUnavailable], a rejected request for
    text [GenerationUnavailable] (the names of the specification);
    [TypeError] is the one of JavaScript.  [DanglingReference] has no
    counterpart in JavaScript: it is what the model answers to a reference
    that is not in the heap. *)

Inductive Error :=
| ScoringUnavailable
| GenerationUnavailable
| TypeError (message : string)
| DanglingReference.

Inductive Result (A : Type) :=
| Return (a : A)
| Throw (e : Error).
Arguments Return {A} a.
Arguments Throw {A} e.

Definition M (A : Type) : Type := World -> World * Result A.

#[global] Instance M_ret : MRet M := fun A a w => (w, Return a).

Definition throw {A} (e : Error) : M A := fun w => (w, Throw e).

#[global] Instance M_bind : MBind M := fun A B k m w =>
  match m w with
  | (w', Return a) => k a w'
  | (w', Throw e) => (w', Throw e)
  end.

(** [try { m } catch (error) { h }]: the state reached when the exception
    was thrown is kept. *)
Definition try_catch {A} (m : M A) (h : Error -> M A) : M A :=
  fun w =>
    match m w with
    | (w', Return a) => (w', Return a)
    | (w', Throw e) => h e w'
    end.

Definition get : M World := fun w => (w, Return w).

Definition modify (f : World -> World) : M unit := fun w => (f w, Return tt).

Definition set_agents (f : gmap ref Agent.t -> gmap ref Agent.t) (w : World) : World :=
  {| agents := f (agents w); interactions := interactions w;
     memories := memories w; characters := characters w; scene := scene w;
     trace := trace w |}.

Definition set_interactions (f : list Interaction.t -> list Interaction.t)
    (w : World) : World :=
  {| agents := agents w; interactions := f (interactions w);
     memories := memories w; characters := characters w; scene := scene w;
     trace := trace w |}.

Definition set_memories
    (f : gmap string (list ServiceMemory.t) -> gmap string (list ServiceMemory.t))
    (w : World) : World :=
  {| agents := agents w; interactions := interactions w;
     memories := f (memories w); characters := characters w; scene := scene w;
     trace := trace w |}.

Definition set_characters
    (f : gmap ref AgentCharacter.t -> gmap ref AgentCharacter.t)
    (w : World) : World :=
  {| agents := agents w; interactions := interactions w;
     memories := memories w; characters := f (characters w); scene := scene w;
     trace := trace w |}.

Definition set_trace (f : list Call -> list Call) (w : World) : World :=
  {| agents := agents w; interactions := interactions w;
     memories := memories w; characters := characters w; scene := scene w;
     trace := f (trace w) |}.

(** A call to the outside world: it is logged, and the moment of the call
    is handed back so that the oracle can be asked for the answer. *)
Definition external (c : Call) : M nat :=
  fun w => (set_trace (fun t => t ++ [c]) w, Return (length (trace w))).

(** The promise of an engine call is awaited: a rejection is thrown. *)
Definition await {A} (c : Call) (answer : nat -> option A) (e : Error) : M A :=
  moment ← external c;
  match answer moment with
  | Some a => mret a
  | None => throw e
  end.

(** [Date.now()], and [new Date()] as its reading. *)
Definition dateNow (env : Env) : M Z :=
  moment ← external DateNow; mret (clock env moment).

Definition mathRandom (env : Env) : M Q :=
  moment ← external MathRandom; mret (random env moment).

Definition getAgent (r : ref) : M Agent.t :=
  fun w =>
    match agents w !! r with
    | Some a => (w, Return a)
    | None => (w, Throw DanglingReference)
    end.

Definition setAgent (r : ref) (a : Agent.t) : M unit :=
  modify (set_agents <[r := a]>).

(** ** [Agent.observe] *)

Definition incrObservation (c : MemoryCount) : MemoryCount :=
  {| observation := observation c + 1; reflection := reflection c;
     plan := plan c; conversation := conversation c |}.

Definition obsId (n : nat) : string := "obs_" +:+ pretty n.

(** [this.memoryStream.push(memory); this.memoryCount.observation += 1] *)
Definition pushObservation (memory : Memory) (a : Agent.t) : Agent.t :=
  {| Agent.engine := Agent.engine a;
     Agent.id := Agent.id a;
     Agent.name := Agent.name a;
     Agent.age := Agent.age a;
     Agent.personality := Agent.personality a;
     Agent.settings := Agent.settings a;
     Agent.memoryStream := Agent.memoryStream a ++ [memory];
     Agent.memoryCount := incrObservation (Agent.memoryCount a);
     Agent.latestPlanIteration := Agent.latestPlanIteration a;
     Agent.action := Agent.action a;
     Agent.location := Agent.location a |}.

(** The two requests are awaited first; the memory is then built (its
    identifier, then [createdAt], then [latestAccess], each [new Date()] a
    reading of the clock of its own), pushed and counted in one go. *)
Definition observe (env : Env) (this : ref) (description : string) : M unit :=
  a ← getAgent this;
  importance ← await (GetImportanceScore description)
                  (fun moment => getImportanceScore (Agent.engine a) moment description)
                  ScoringUnavailable;
  embedding ← await (GetEmbedding description)
                 (fun moment => getEmbedding (Agent.engine a) moment description)
                 ScoringUnavailable;
  a ← getAgent this;
  let id := obsId (observation (Agent.memoryCount a) + 1) in
  created ← dateNow env;
  accessed ← dateNow env;
  let memory :=
    Observation
      {| BaseMemory.id := id;
         BaseMemory.createdAt := dateToString env created;
         BaseMemory.description := description;
         BaseMemory.importance := importance;
         BaseMemory.latestAccess := dateToString env accessed;
         BaseMemory.embedding := embedding |} in
  setAgent this (pushObservation memory a).

(** ** The interaction service *)

Definition nl : string := String "010"%char "".

(** [xs.join(sep)] *)
Definition join (sep : string) (xs : list string) : string := String.concat sep xs.

(** [response || fallback]: the empty string is falsy. *)
Definition orElse (response fallback : string) : string :=
  if decide (response = "") then fallback else response.

Definition conversationContext (initiator target : Agent.t) : string :=
  nl +:+ "      " +:+ Agent.name initiator +:+ "'s background: "
     +:+ background (Agent.personality initiator) +:+
  nl +:+ "      " +:+ Agent.name initiator +:+ "'s current goal: "
     +:+ currentGoal (Agent.personality initiator) +:+
  nl +:+ "      " +:+ Agent.name target +:+ "'s background: "
     +:+ background (Agent.personality target) +:+
  nl +:+ "      " +:+ Agent.name target +:+ "'s current goal: "
     +:+ currentGoal (Agent.personality target) +:+
  nl +:+ "    ".

Definition conversationMessage (target : Agent.t) : string :=
  "You are having a conversation with " +:+ Agent.name target +:+
  ". Generate a very brief, natural conversation (1-2 sentences each) considering both of your backgrounds and goals. Keep it concise and casual.".

Definition conversationFailed : string := "Failed to generate conversation".

Definition generateConversation (initiator target : ref) : M string :=
  i ← getAgent initiator;
  t ← getAgent target;
  let context := conversationContext i t in
  let message := conversationMessage t in
  try_catch
    (response ← await (Reply message initiator context)
                  (fun moment => reply (Agent.engine i) moment message initiator context)
                  GenerationUnavailable;
     mret (orElse response conversationFailed))
    (fun error => mret conversationFailed).

Definition day : Z := 24 * 60 * 60 * 1000.

(** [knownFacts.filter(m => m.timestamp > Date.now() - 24 * 60 * 60 * 1000)]:
    the clock is read once for every element. *)
Fixpoint filterRecent (env : Env) (knownFacts : list ServiceMemory.t)
    : M (list ServiceMemory.t) :=
  match knownFacts with
  | [] => mret []
  | m :: rest =>
      now ← dateNow env;
      kept ← filterRecent env rest;
      mret (if (now - day <? ServiceMemory.timestamp m)%Z then m :: kept else kept)
  end.

Definition rumorContext (agent : Agent.t) (relevantFacts : string) : string :=
  nl +:+ "      Your personality traits: "
     +:+ join ", " (innateTendency (Agent.personality agent)) +:+
  nl +:+ "      Recent events and information you know about:" +:+
  nl +:+ "      " +:+ relevantFacts +:+
  nl +:+ "    ".

Definition rumorMessage : string :=
  "Share a brief, interesting rumor or piece of gossip (1-2 sentences) based on what you know.".

Definition rumorFailed : string := "Failed to generate rumor".

Definition generateRumor (env : Env) (agent : ref) (knownFacts : list ServiceMemory.t)
    : M string :=
  recent ← filterRecent env knownFacts;
  let relevantFacts := join nl (map ServiceMemory.content recent) in
  a ← getAgent agent;
  let context := rumorContext a relevantFacts in
  let message := rumorMessage in
  try_catch
    (response ← await (Reply message agent context)
                  (fun moment => reply (Agent.engine a) moment message agent context)
                  GenerationUnavailable;
     mret (orElse response rumorFailed))
    (fun error => mret rumorFailed).

(** The literals [0.8], [0.3] and [0.7] are the doubles nearest to them. *)
Definition double_0_8 : Q := 3602879701896397 # 4503599627370496.
Definition double_0_3 : Q := 5404319552844595 # 18014398509481984.
Definition double_0_7 : Q := 3152519739159347 # 4503599627370496.

Definition reliabilityOf (type : SourceType) : Q :=
  match type with
  | direct => 1
  | observed => double_0_8
  | rumor => 1 # 2
  end.

Definition recordMemory (env : Env) (agentId content : string) (type : SourceType)
    (source : string) : M unit :=
  now ← dateNow env;
  let memory :=
    {| ServiceMemory.agentId := agentId;
       ServiceMemory.content := content;
       ServiceMemory.timestamp := now;
       ServiceMemory.source := source;
       ServiceMemory.type := type;
       ServiceMemory.reliability := reliabilityOf type |} in
  modify (set_memories (fun m => <[agentId := default [] (m !! agentId) ++ [memory]]> m)).

Definition observationContent (initiator target : Agent.t) : string :=
  Agent.name initiator +:+ " observed " +:+ Agent.name target +:+ " " +:+
  orElse (currentGoal (Agent.personality target)) "doing something".

Definition createInteraction (env : Env) (initiator target : ref)
    (type : InteractionType) : M (option Interaction.t) :=
  i ← getAgent initiator;
  t ← getAgent target;
  content ←
    match type with
    | conversation_ => generateConversation initiator target
    | rumor_ =>
        w ← get;
        let knownFacts := default [] (memories w !! Agent.id i) in
        generateRumor env initiator knownFacts
    | observation_ => mret (observationContent i t)
    end;
  r ← mathRandom env;
  now ← dateNow env;
  let interaction :=
    {| Interaction.id := toString36 env r;
       Interaction.initiatorId := Agent.id i;
       Interaction.targetId := Agent.id t;
       Interaction.type := type;
       Interaction.content := content;
       Interaction.timestamp := now |} in
  modify (set_interactions (fun l => l ++ [interaction]));;
  recordMemory env (Agent.id i) content direct (Agent.id t);;
  recordMemory env (Agent.id t) content
    (match type with rumor_ => rumor | _ => direct end) (Agent.id i);;
  observe env initiator content;;
  observe env target content;;
  mret (Some interaction).

Definition getAgentMemories (agentId : string) : M (list ServiceMemory.t) :=
  w ← get; mret (default [] (memories w !! agentId)).

(** [interactions.sort((a, b) => b.timestamp - a.timestamp)]: the sort of
    an array is stable, so its result is the one of this insertion sort:
    an element goes in front of the elements after it that are not more
    recent than it is. *)
Fixpoint insertByTimestamp (i : Interaction.t) (l : list Interaction.t)
    : list Interaction.t :=
  match l with
  | [] => [i]
  | j :: l' =>
      if (Interaction.timestamp j <=? Interaction.timestamp i)%Z
      then i :: j :: l'
      else j :: insertByTimestamp i l'
  end.

Definition sortByTimestamp (l : list Interaction.t) : list Interaction.t :=
  foldr insertByTimestamp [] l.

(** [xs.slice(0, limit)]: a negative [limit] counts from the end. *)
Definition slice0 {A} (limit : Z) (xs : list A) : list A :=
  let len := Z.of_nat (length xs) in
  let final := if (limit <? 0)%Z then Z.max (len + limit) 0 else Z.min limit len in
  take (Z.to_nat final) xs.

(** [getRecentInteractions(limit = 10)]: an argument left out is [None].
    The array is sorted in place. *)
Definition getRecentInteractions (limit : option Z) : M (list Interaction.t) :=
  let limit := default 10%Z limit in
  modify (set_interactions sortByTimestamp);;
  w ← get;
  mret (slice0 limit (interactions w)).

(** Most recent first. *)
Definition newerFirst (i j : Interaction.t) : Prop :=
  (Interaction.timestamp j <= Interaction.timestamp i)%Z.

Definition proximityThreshold : Double.t := Double.ofZ 100.

Definition canInteract (agent1 agent2 : Position) : bool :=
  let distance :=
    Double.sqrt
      (Double.add (Double.square (Double.sub (x agent1) (x agent2)))
                  (Double.square (Double.sub (y agent1) (y agent2)))) in
  Double.leb distance proximityThreshold.

(** A position with integer coordinates. *)
Definition pixel (px py : Z) : Position :=
  {| x := Double.ofZ px; y := Double.ofZ py |}.



(** The same double, or its opposite. *)
Definition sameMagnitude (u v : Double.t) : Prop := v = u \/ v = SFopp u.

(** ** [AgentCharacter] *)

Definition minInteractionInterval : Z := 10000.

Definition getCharacter (r : ref) : M AgentCharacter.t :=
  fun w =>
    match characters w !! r with
    | Some c => (w, Return c)
    | None => (w, Throw DanglingReference)
    end.

Definition setCharacter (r : ref) (c : AgentCharacter.t) : M unit :=
  modify (set_characters <[r := c]>).

Definition showSpeechBubble (this : ref) (content : string) : M unit :=
  c ← getCharacter this;
  match AgentCharacter.speechBubble c with
  | None => mret tt
  | Some _ =>
      setCharacter this
        {| AgentCharacter.agent := AgentCharacter.agent c;
           AgentCharacter.position := AgentCharacter.position c;
           AgentCharacter.lastInteractionTime := AgentCharacter.lastInteractionTime c;
           AgentCharacter.speechBubble := Some {| text := content; visible := true |} |}
  end.

Definition setLastInteractionTime (this : ref) (time : Z) : M unit :=
  c ← getCharacter this;
  setCharacter this
    {| AgentCharacter.agent := AgentCharacter.agent c;
       AgentCharacter.position := AgentCharacter.position c;
       AgentCharacter.lastInteractionTime := time;
       AgentCharacter.speechBubble := AgentCharacter.speechBubble c |}.

(** [s.split(sep)] for a separator of one character. *)
Fixpoint split (sep : ascii) (s : string) : list string :=
  match s with
  | EmptyString => [""]
  | String c s' =>
      if decide (c = sep) then "" :: split sep s'
      else match split sep s' with
           | piece :: pieces => String c piece :: pieces
           | [] => [String c ""]
           end
  end.

(** [s.trim()].  A string is kept as the bytes of its UTF-8 encoding, a
    character being a byte together with the continuation bytes
    ([10xxxxxx]) that follow it.  [trim] removes from both ends the white
    space and the line terminators of ECMAScript: TAB, LF, VT, FF, CR, the
    space, U+00A0, U+1680, U+2000 to U+200A, U+2028, U+2029, U+202F, U+205F,
    U+3000 and U+FEFF. *)
Definition bytes (codes : list nat) : string :=
  string_of_list_ascii (map ascii_of_nat codes).

Definition whiteSpace : list string :=
  map bytes
    [[9]; [10]; [11]; [12]; [13]; [32];
     [194; 160];
     [225; 154; 128];
     [226; 128; 128]; [226; 128; 129]; [226; 128; 130]; [226; 128; 131];
     [226; 128; 132]; [226; 128; 133]; [226; 128; 134]; [226; 128; 135];
     [226; 128; 136]; [226; 128; 137]; [226; 128; 138];
     [226; 128; 168]; [226; 128; 169];
     [226; 128; 175];
     [226; 129; 159];
     [227; 128; 128];
     [239; 187; 191]].

Definition isContinuation (c : ascii) : bool :=
  let n := nat_of_ascii c in Nat.leb 128 n && Nat.leb n 191.

Definition continued (s : string) : bool :=
  match s with
  | String c _ => isContinuation c
  | EmptyString => false
  end.

Fixpoint codePoints (s : string) : list string :=
  match s with
  | EmptyString => []
  | String c s' =>
      match codePoints s' with
      | point :: points =>
          if continued s' then String c point :: points
          else String c "" :: point :: points
      | [] => [String c ""]
      end
  end.

Definition isWhiteSpace (point : string) : bool :=
  bool_decide (point ∈ whiteSpace).

Fixpoint dropWhile {A} (f : A -> bool) (xs : list A) : list A :=
  match xs with
  | x :: xs' => if f x then dropWhile f xs' else xs
  | [] => []
  end.

Definition trimStart (points : list string) : list string :=
  dropWhile isWhiteSpace points.

Definition trimEnd (points : list string) : list string :=
  reverse (dropWhile isWhiteSpace (reverse points)).

Definition trim (s : string) : string :=
  String.concat "" (trimEnd (trimStart (codePoints s))).

(** What [checkForInteractions] does with a character in range: the
    block guarded by [canInteract]. *)
Definition approach (env : Env) (this otherCharacter : ref)
    (me other : AgentCharacter.t) : M unit :=
  r ← mathRandom env;
  if Qlt_le_dec r double_0_3
  then
    r' ← mathRandom env;
    let interactionType := if Qlt_le_dec r' double_0_7 then conversation_ else rumor_ in
    interaction ← createInteraction env (AgentCharacter.agent me)
                    (AgentCharacter.agent other) interactionType;
    match interaction with
    | Some interaction =>
        let pieces := split "|" (Interaction.content interaction) in
        initiatorText ←
          match pieces !! 0 with
          | Some piece => mret (trim piece)
          | None => throw (TypeError "initiatorText is undefined")
          end;
        showSpeechBubble this initiatorText;;
        targetText ←
          match pieces !! 1 with
          | Some piece => mret (trim piece)
          | None => throw (TypeError "targetText is undefined")
          end;
        showSpeechBubble otherCharacter targetText;;
        now ← dateNow env;
        setLastInteractionTime this now;;
        now' ← dateNow env;
        setLastInteractionTime otherCharacter now'
    | None => mret tt
    end
  else mret tt.

(** The body of the loop of [checkForInteractions]. *)
Definition interactWith (env : Env) (this otherCharacter : ref) : M unit :=
  if decide (otherCharacter = this) then mret tt
  else
    me ← getCharacter this;
    other ← getCharacter otherCharacter;
    if canInteract (AgentCharacter.position me) (AgentCharacter.position other)
    then approach env this otherCharacter me other
    else mret tt.

Fixpoint forEach (others : list ref) (body : ref -> M unit) : M unit :=
  match others with
  | [] => mret tt
  | other :: rest => body other;; forEach rest body
  end.

Definition checkForInteractions (env : Env) (this : ref) : M unit :=
  now ← dateNow env;
  me ← getCharacter this;
  if (now - AgentCharacter.lastInteractionTime me <? minInteractionInterval)%Z
  then mret tt
  else
    w ← get;
    match scene w with
    | None => mret tt
    | Some others => forEach others (interactWith env this)
    end.

(** A caller that awaits one [observe] after the other, as the scene does
    when it fills in an agent's basic observations. *)
Fixpoint observeAll (env : Env) (this : ref) (descriptions : list string) : M unit :=
  match descriptions with
  | [] => mret tt
  | description :: rest => observe env this description;; observeAll env this rest
  end.

(** The memory built by a successful [observe] that started at moment
    [moment] (two engine calls, then the two clock readings). *)
Definition observation_at (env : Env) (a : Agent.t) (moment : nat)
    (description : string) (importance : Q) (embedding : list Q) : Memory :=
  Observation
    {| BaseMemory.id := obsId (observation (Agent.memoryCount a) + 1);
       BaseMemory.createdAt := dateToString env (clock env (moment + 2));
       BaseMemory.description := description;
       BaseMemory.importance := importance;
       BaseMemory.latestAccess := dateToString env (clock env (moment + 3));
       BaseMemory.embedding := embedding |}.

(** Identifiers of observations are ordered by their number. *)
Definition id_lt (s1 s2 : string) : Prop :=
  exists n1 n2, s1 = obsId n1 /\ s2 = obsId n2 /\ n1 < n2.

Definition memoryId (m : Memory) : string := BaseMemory.id (base m).

(** The identifiers of the observations of an agent's stream, in the order
    of the stream. *)
Definition isObservation (m : Memory) : bool :=
  match m with Observation _ => true | _ => false end.

Definition observationIds (a : Agent.t) : list string :=
  map memoryId (List.filter isObservation (Agent.memoryStream a)).

(** The counter of observations accounts for the observations stored: this
    holds of a new agent and is kept by [observe]. *)
Definition counted (a : Agent.t) : Prop :=
  observationIds a = map obsId (seq 1 (observation (Agent.memoryCount a))).

(** ** The sections of [createInteraction]

    The body of [createInteraction] is, in this order: the [switch] that
    produces the content ([generateContent]), the recording of the
    interaction and of the two memories of the service ([recordPart]), and
    the two [observe] calls.  [createInteraction_sections] below shows that
    the method is the sequence of these. *)

Definition generateContent (env : Env) (initiator target : ref) (i t : Agent.t)
    (type : InteractionType) : M string :=
  match type with
  | conversation_ => generateConversation initiator target
  | rumor_ =>
      w ← get;
      let knownFacts := default [] (memories w !! Agent.id i) in
      generateRumor env initiator knownFacts
  | observation_ => mret (observationContent i t)
  end.

Definition recordPart (env : Env) (i t : Agent.t) (type : InteractionType)
    (content : string) : M Interaction.t :=
  r ← mathRandom env;
  now ← dateNow env;
  let interaction :=
    {| Interaction.id := toString36 env r;
       Interaction.initiatorId := Agent.id i;
       Interaction.targetId := Agent.id t;
       Interaction.type := type;
       Interaction.content := content;
       Interaction.timestamp := now |} in
  modify (set_interactions (fun l => l ++ [interaction]));;
  recordMemory env (Agent.id i) content direct (Agent.id t);;
  recordMemory env (Agent.id t) content
    (match type with rumor_ => rumor | _ => direct end) (Agent.id i);;
  mret interaction.

(** The interaction built when the recording starts at moment [moment]. *)
Definition interactionAt (env : Env) (i t : Agent.t) (type : InteractionType)
    (content : string) (moment : nat) : Interaction.t :=
  {| Interaction.id := toString36 env (random env moment);
     Interaction.initiatorId := Agent.id i;
     Interaction.targetId := Agent.id t;
     Interaction.type := type;
     Interaction.content := content;
     Interaction.timestamp := clock env (S moment) |}.

(** The calls logged. *)
Definition log (calls : list Call) : World -> World :=
  set_trace (fun t => t ++ calls).

Definition isReply (c : Call) : bool :=
  match c with Reply _ _ _ => true | _ => false end.

(** The requests made to the text generation, in order. *)
Definition replies (w : World) : list Call := List.filter isReply (trace w).

(** The memories that [filterRecent] keeps when its first reading of the
    clock is made at moment [moment]. *)
Fixpoint keptAt (env : Env) (moment : nat) (knownFacts : list ServiceMemory.t)
    : list ServiceMemory.t :=
  match knownFacts with
  | [] => []
  | m :: rest =>
      let kept := keptAt env (S moment) rest in
      if (clock env moment - day <? ServiceMemory.timestamp m)%Z then m :: kept else kept
  end.


(** The answer of the engine to a request for text, with the fallback. *)
Definition replyOrElse (a : Agent.t) (moment : nat) (message : string) (agent : ref)
    (context fallback : string) : string :=
  match reply (Agent.engine a) moment message agent context with
  | Some response => orElse response fallback
  | None => fallback
  end.

(** The engine answers every request for a score and for an embedding. *)
Definition scoringAvailable (e : AgentEngine) : Prop :=
  forall moment description,
    is_Some (getImportanceScore e moment description)
    /\ is_Some (getEmbedding e moment description).



(** ** Sample engines, agents and worlds *)

(** An engine that answers every request. *)
Definition steadyEngine : AgentEngine :=
  {| getImportanceScore := fun _ _ => Some 5%Q;
     getEmbedding := fun _ _ => Some [1%Q; 0%Q];
     reply := fun _ _ _ _ => Some "Lovely weather today.|It is indeed." |}.

(** An engine whose scoring is down. *)
Definition deafEngine : AgentEngine :=
  {| getImportanceScore := fun _ _ => None;
     getEmbedding := fun _ _ => None;
     reply := fun _ _ _ _ => Some "Lovely weather today.|It is indeed." |}.

(** An engine whose text generation is down. *)
Definition muteEngine : AgentEngine :=
  {| getImportanceScore := fun _ _ => Some 5%Q;
     getEmbedding := fun _ _ => Some [1%Q; 0%Q];
     reply := fun _ _ _ _ => None |}.

(** A clock that advances by one millisecond with every call to the
    outside world, and dates rendered as milliseconds. *)
Definition tickingEnv : Env :=
  {| clock := fun moment => Z.of_nat moment;
     random := fun _ => 0%Q;
     dateToString := pretty;
     toString36 := fun _ => "4fzyo82" |}.

(** A clock that stands still. *)
Definition stillEnv : Env :=
  {| clock := fun _ => 1000%Z;
     random := fun _ => 0%Q;
     dateToString := pretty;
     toString36 := fun _ => "4fzyo82" |}.

Definition gardener : AgentPersonality :=
  {| background := "keeps the village garden";
     innateTendency := ["curious"; "kind"];
     learnedTendency := ["patient"];
     currentGoal := "watering the roses";
     lifestyle := "rises early";
     values := ["honesty"] |}.

Definition alice (engine : AgentEngine) : Agent.t :=
  newAgent engine "alice" "Alice" 30 gardener defaultSettings [].

Definition bob (engine : AgentEngine) : Agent.t :=
  newAgent engine "bob" "Bob" 41 gardener defaultSettings [].

(** Alice at reference [0], Bob at reference [1]; no character on stage. *)
Definition village (engineA engineB : AgentEngine) : World :=
  {| agents := {[ 0 := alice engineA; 1 := bob engineB ]};
     interactions := [];
     memories := ∅;
     characters := ∅;
     scene := None;
     trace := [] |}.

Definition streamOf (w : World) (r : ref) : option (list Memory) :=
  Agent.memoryStream <$> agents w !! r.

(** The constructor of [AgentCharacter]: the speech bubble is created
    hidden and empty. *)
Definition newCharacter (agent : ref) (position : Position) : AgentCharacter.t :=
  {| AgentCharacter.agent := agent;
     AgentCharacter.position := position;
     AgentCharacter.lastInteractionTime := 0;
     AgentCharacter.speechBubble := Some {| text := ""; visible := false |} |}.

(** Alice and Bob on stage at two positions, with one engine for both. *)
Definition stage (engine : AgentEngine) (positionA positionB : Position) : World :=
  {| agents := {[ 0 := alice engine; 1 := bob engine ]};
     interactions := [];
     memories := ∅;
     characters := {[ 0 := newCharacter 0 positionA; 1 := newCharacter 1 positionB ]};
     scene := Some [0; 1];
     trace := [] |}.

(** A clock late in the epoch that advances by one millisecond with every
    call to the outside world; every random draw is [0]. *)
Definition lateEnv : Env :=
  {| clock := fun moment => (1700000000000 + Z.of_nat moment)%Z;
     random := fun _ => 0%Q;
     dateToString := pretty;
     toString36 := fun _ => "4fzyo82" |}.

(** Who met whom, and when. *)
Definition encounter (i : Interaction.t) : string * string * Z :=
  (Interaction.initiatorId i, Interaction.targetId i, Interaction.timestamp i).

Definition lastInteractionTimeOf (w : World) (r : ref) : option Z :=
  AgentCharacter.lastInteractionTime <$> characters w !! r.

(** The two scenes of the specification: a character at the origin, one
    [80] units to the east, one [150] units to the east. *)
Definition origin : Position := pixel 0 0.
Definition eastBy80 : Position := pixel 80 0.
Definition eastBy150 : Position := pixel 150 0.


(** A village in which three interactions are on record and Alice has been
    told two things, one of them long ago. *)
Definition meeting (id : string) (timestamp : Z) : Interaction.t :=
  {| Interaction.id := id;
     Interaction.initiatorId := "alice";
     Interaction.targetId := "bob";
     Interaction.type := conversation_;
     Interaction.content := "Good morning.|Good morning.";
     Interaction.timestamp := timestamp |}.

Definition told (content : string) (timestamp : Z) : ServiceMemory.t :=
  {| ServiceMemory.agentId := "alice";
     ServiceMemory.content := content;
     ServiceMemory.timestamp := timestamp;
     ServiceMemory.source := "bob";
     ServiceMemory.type := direct;
     ServiceMemory.reliability := 1 |}.

Definition chronicle : World :=
  {| agents := {[ 0 := alice steadyEngine; 1 := bob steadyEngine ]};
     interactions := [meeting "a" 5; meeting "b" 9; meeting "c" 7];
     memories :=
       {[ "alice" := [told "The fair was last year." 1600000000000;
                      told "The well is dry." 1699999999000] ]};
     characters := ∅;
     scene := None;
     trace := [] |}.

(** ** What the operations keep

    [grows R m]: the world that [m] leaves behind, whatever its outcome, is
    related by [R] to the world it started in.  For a preorder [R] this
    passes through sequencing, so that a method keeps what each of its
    steps keeps. *)

Definition grows (R : relation World) {A} (m : M A) : Prop :=
  forall w, R w (fst (m w)).

(** A relation that does not look at one of the fields of the world. *)
Class Ignores {X} (set : (X -> X) -> World -> World) (R : relation World) : Prop :=
  ignores : forall f w, R w (set f w).

(** The field [field] is the same in both worlds. *)
Definition same {X} (field : World -> X) : relation World :=
  fun w w' => field w' = field w.

(** What the service has recorded for an agent. *)
Definition knownTo (w : World) (agentId : string) : list ServiceMemory.t :=
  default [] (memories w !! agentId).

(** The memory recorded at moment [moment]. *)
Definition serviceMemoryAt (env : Env) (agentId content : string) (type : SourceType)
    (source : string) (moment : nat) : ServiceMemory.t :=
  {| ServiceMemory.agentId := agentId;
     ServiceMemory.content := content;
     ServiceMemory.timestamp := clock env moment;
     ServiceMemory.source := source;
     ServiceMemory.type := type;
     ServiceMemory.reliability := reliabilityOf type |}.

(** The memories of the service once [createInteraction] has recorded, from
    moment [moment] on, an interaction of content [content]. *)
Definition recordBoth (env : Env) (i t : Agent.t) (type : InteractionType)
    (content : string) (moment : nat)
    (m : gmap string (list ServiceMemory.t)) : gmap string (list ServiceMemory.t) :=
  let m1 :=
    <[Agent.id i := default [] (m !! Agent.id i)
                    ++ [serviceMemoryAt env (Agent.id i) content direct (Agent.id t)
                          (moment + 2)]]> m in
  <[Agent.id t := default [] (m1 !! Agent.id t)
                  ++ [serviceMemoryAt env (Agent.id t) content
                        (match type with rumor_ => rumor | _ => direct end)
                        (Agent.id i) (moment + 3)]]> m1.

(** The interactions of one timestamp, in the order of the list. *)
Definition stampedAt (timestamp : Z) (l : list Interaction.t) : list Interaction.t :=
  List.filter (fun i => (Interaction.timestamp i =? timestamp)%Z) l.

(** ** Histories

    The operations that the service, the agents and the characters offer,
    and the world after a sequence of them (the outcomes are dropped: an
    operation that fails leaves the world it had reached). *)
Inductive Operation :=
| Observe (this : ref) (description : string)
| CreateInteraction (initiator target : ref) (type : InteractionType)
| RecordMemory (agentId content : string) (type : SourceType) (source : string)
| GetAgentMemories (agentId : string)
| GetRecentInteractions (limit : option Z)
| CheckForInteractions (this : ref).

Definition perform (env : Env) (op : Operation) (w : World) : World :=
  match op with
  | Observe this description => fst (observe env this description w)
  | CreateInteraction initiator target type =>
      fst (createInteraction env initiator target type w)
  | RecordMemory agentId content type source =>
      fst (recordMemory env agentId content type source w)
  | GetAgentMemories agentId => fst (getAgentMemories agentId w)
  | GetRecentInteractions limit => fst (getRecentInteractions limit w)
  | CheckForInteractions this => fst (checkForInteractions env this w)
  end.

Definition performAll (env : Env) (ops : list Operation) (w : World) : World :=
  foldl (fun w op => perform env op w) w ops.

(** In every stream the counter accounts for the observations. *)
Definition allCounted (w : World) : Prop :=
  forall k a, agents w !! k = Some a -> counted a.

Definition keepsCounted : relation World :=
  fun w w' => allCounted w -> allCounted w'.

(** Nothing is taken back: every agent is still there with the same
    identity and engine, its stream has only grown at the end and its
    counter of observations has not gone down; no interaction is lost; what
    the service has recorded for an agent has only grown at the end. *)
Definition appendOnly : relation World :=
  fun w w' =>
    (forall k a, agents w !! k = Some a ->
       exists a',
         agents w' !! k = Some a'
         /\ Agent.memoryStream a `prefix_of` Agent.memoryStream a'
         /\ observation (Agent.memoryCount a) <= observation (Agent.memoryCount a')
         /\ Agent.id a' = Agent.id a
         /\ Agent.name a' = Agent.name a
         /\ Agent.engine a' = Agent.engine a)
    /\ interactions w ⊆+ interactions w'
    /\ (forall agentId, knownTo w agentId `prefix_of` knownTo w' agentId).

(** Interactions have only been added at the end, none of them of kind
    observation. *)
Definition onlyTalk : relation World :=
  fun w w' =>
    exists news,
      interactions w' = interactions w ++ news
      /\ Forall (fun i => Interaction.type i <> observation_) news.

(** ** More of [AgentCharacter] *)

(** Does the character [c] occur in [s]? *)
Fixpoint occurs (c : ascii) (s : string) : bool :=
  match s with
  | EmptyString => false
  | String c' s' => if decide (c' = c) then true else occurs c s'
  end.

(** How often? *)
Fixpoint occurrences (c : ascii) (s : string) : nat :=
  match s with
  | EmptyString => 0
  | String c' s' => (if decide (c' = c) then 1 else 0) + occurrences c s'
  end.

(** A character after [showSpeechBubble(content)], and after its
    [lastInteractionTime] has been set. *)
Definition shown (content : string) (c : AgentCharacter.t) : AgentCharacter.t :=
  match AgentCharacter.speechBubble c with
  | None => c
  | Some _ =>
      {| AgentCharacter.agent := AgentCharacter.agent c;
         AgentCharacter.position := AgentCharacter.position c;
         AgentCharacter.lastInteractionTime := AgentCharacter.lastInteractionTime c;
         AgentCharacter.speechBubble := Some {| text := content; visible := true |} |}
  end.

Definition stamped (time : Z) (c : AgentCharacter.t) : AgentCharacter.t :=
  {| AgentCharacter.agent := AgentCharacter.agent c;
     AgentCharacter.position := AgentCharacter.position c;
     AgentCharacter.lastInteractionTime := time;
     AgentCharacter.speechBubble := AgentCharacter.speechBubble c |}.

(** [Math.random() < 0.7 ? 'conversation' : 'rumor'] *)
Definition kindDrawn (r : Q) : InteractionType :=
  if Qlt_le_dec r double_0_7 then conversation_ else rumor_.

(** [getAgentInitials]:
    [this.agent.id.split("_").map((word) => word[0]).join("").toUpperCase()].
    The first character of an empty word is [undefined], which [join]
    renders as the empty string.  [toUpperCase] is the one of ASCII. *)
Definition firstCharacter (word : string) : string :=
  match word with
  | String c _ => String c ""
  | EmptyString => ""
  end.

Definition isLowerCase (c : ascii) : bool :=
  let n := nat_of_ascii c in Nat.leb 97 n && Nat.leb n 122.

Definition upperCase (c : ascii) : ascii :=
  if isLowerCase c then ascii_of_nat (nat_of_ascii c - 32) else c.

Fixpoint toUpperCase (s : string) : string :=
  match s with
  | EmptyString => ""
  | String c s' => String (upperCase c) (toUpperCase s')
  end.

Definition getAgentInitials (id : string) : string :=
  toUpperCase (join "" (map firstCharacter (split "_" id))).

Definition isAscii (s : string) : Prop :=
  Forall (fun c => nat_of_ascii c < 128) (list_ascii_of_string s).

(** ** [AgentLogger]: the buffer of log entries *)

Inductive LogType := action | movement | error.

Module LogEntry.
Record t := mk {
  timestamp : Z;
  agentName : string;
  message : string;
  type : LogType
}.
End LogEntry.

(** What [handleLog] is called with, and the reading of the clock made for
    the entry ([agentName] and [type] may be left out). *)
Record LogCall := {
  logTime : Z;
  logMessage : string;
  logAgentName : option string;
  logType : option LogType
}.

Definition logEntry (c : LogCall) : LogEntry.t :=
  {| LogEntry.timestamp := logTime c;
     LogEntry.agentName := default "" (logAgentName c);
     LogEntry.message := logMessage c;
     LogEntry.type := default action (logType c) |}.

(** [setLogs(prevLogs => [entry, ...prevLogs.slice(0, 99)])] *)
Definition handleLog (c : LogCall) (prevLogs : list LogEntry.t) : list LogEntry.t :=
  logEntry c :: take 99 prevLogs.

Definition handleLogs (calls : list LogCall) (logs : list LogEntry.t) : list LogEntry.t :=
  foldl (fun logs c => handleLog c logs) logs calls.

(** ** [agentService]: the agents kept in the local storage

    The item under the key ['generative_agents'] is written by this service
    only: it is absent, or the JSON text of a record of agents.  The fields
    of an agent being strings, finite numbers and arrays of strings,
    [JSON.parse] gives back what [JSON.stringify] was given; the item is
    kept as the record itself.  The record is an object: besides its own
    properties it shows the properties of [Object.prototype], and the name
    [__proto__] is not an own property unless the record has one. *)

Module AgentDetails.
Record t := mk {
  id : string;
  name : string;
  age : Q;
  currentLocation : string;
  visualRange : Q;
  attention : Q;
  retention : Q;
  background : string;
  currentGoal : string;
  lifestyle : string;
  innateTendencies : list string;
  learnedTendencies : list string;
  values : list string;
  emoji : option string
}.
End AgentDetails.

Definition Storage := option (gmap string AgentDetails.t).

Definition objectPrototype : list string :=
  ["constructor"; "__defineGetter__"; "__defineSetter__"; "hasOwnProperty";
   "__lookupGetter__"; "__lookupSetter__"; "isPrototypeOf";
   "propertyIsEnumerable"; "toString"; "valueOf"; "__proto__"; "toLocaleString"].

(** [agents[id]] *)
Inductive Property :=
| Own (agent : AgentDetails.t)
| Inherited (name : string)
| Undefined.

Definition getProperty (agents : gmap string AgentDetails.t) (id : string) : Property :=
  match agents !! id with
  | Some agent => Own agent
  | None => if bool_decide (id ∈ objectPrototype) then Inherited id else Undefined
  end.

(** [agents[id] = agent] *)
Definition setProperty (agents : gmap string AgentDetails.t) (id : string)
    (agent : AgentDetails.t) : gmap string AgentDetails.t :=
  if bool_decide (id = "__proto__") && bool_decide (agents !! id = None)
  then agents
  else <[id := agent]> agents.

Module agentService.

Definition getAllAgents (storage : Storage) : gmap string AgentDetails.t :=
  default ∅ storage.

(** [agents[id] || null]: [Undefined] stands for [null]. *)
Definition getAgent (storage : Storage) (id : string) : Property :=
  getProperty (getAllAgents storage) id.

Definition saveAgent (agent : AgentDetails.t) (storage : Storage) : Storage :=
  Some (setProperty (getAllAgents storage) (AgentDetails.id agent) agent).

Definition deleteAgent (id : string) (storage : Storage) : Storage :=
  Some (delete id (getAllAgents storage)).

Definition initializeDefaultAgent (defaultAgent : AgentDetails.t) (storage : Storage)
    : Storage :=
  match getProperty (getAllAgents storage) (AgentDetails.id defaultAgent) with
  | Undefined => saveAgent defaultAgent storage
  | _ => storage
  end.

End agentService.

(** A sample of the editor's agents. *)
Definition detailsOf (id name : string) : AgentDetails.t :=
  {| AgentDetails.id := id;
     AgentDetails.name := name;
     AgentDetails.age := 30;
     AgentDetails.currentLocation := "garden";
     AgentDetails.visualRange := 8;
     AgentDetails.attention := 8;
     AgentDetails.retention := 8;
     AgentDetails.background := "keeps the village garden";
     AgentDetails.currentGoal := "watering the roses";
     AgentDetails.lifestyle := "rises early";
     AgentDetails.innateTendencies := ["curious"];
     AgentDetails.learnedTendencies := ["patient"];
     AgentDetails.values := ["honesty"];
     AgentDetails.emoji := None |}.

(** What [trim] has made of [s] is [s']: white space taken from the two
    ends, and none left there. *)
Definition trimmedTo (s s' : string) : Prop :=
  exists before middle after,
    codePoints s = before ++ middle ++ after
    /\ Forall (fun point => isWhiteSpace point = true) before
    /\ Forall (fun point => isWhiteSpace point = true) after
    /\ (forall point, head middle = Some point -> isWhiteSpace point = false)
    /\ (forall point, last middle = Some point -> isWhiteSpace point = false)
    /\ s' = String.concat "" middle.

(** An engine whose reply has white space around its two pieces, some of
    it outside ASCII: U+00A0 around the first piece, a space and U+3000
    before the second and a line feed after it. *)
Definition paddedFirst : string := bytes [194; 160] +:+ "Bonjour" +:+ bytes [194; 160].
Definition paddedSecond : string := " " +:+ bytes [227; 128; 128] +:+ "ok" +:+ bytes [10].
Definition paddedReply : string := paddedFirst +:+ "|" +:+ paddedSecond.

Definition paddedEngine : AgentEngine :=
  {| getImportanceScore := fun _ _ => Some 5%Q;
     getEmbedding := fun _ _ => Some [1%Q; 0%Q];
     reply := fun _ _ _ _ => Some paddedReply |}.

(** An engine whose reply has no separator. *)
Definition ramblingReply : string :=
  " " +:+ bytes [194; 160] +:+ "Nothing to say." +:+ bytes [10].

Definition ramblingEngine : AgentEngine :=
  {| getImportanceScore := fun _ _ => Some 5%Q;
     getEmbedding := fun _ _ => Some [1%Q; 0%Q];
     reply := fun _ _ _ _ => Some ramblingReply |}.

Definition bubbleText (w : World) (r : ref) : option string :=
  c ← characters w !! r;
  b ← AgentCharacter.speechBubble c;
  Some (text b).
(** * Properties of [observe] *)

Section Observe.
Variable env : Env.

Lemma observe_importance_rejected w this a description :
  agents w !! this = Some a ->
  getImportanceScore (Agent.engine a) (length (trace w)) description = None ->
  observe env this description w
  = (set_trace (fun t => t ++ [GetImportanceScore description]) w,
     Throw ScoringUnavailable).
Proof.
  intros Ha Hi.
  unfold observe, getAgent, await, external, mbind, M_bind.
  rewrite Ha. simpl. rewrite Hi. reflexivity.
Qed.

Lemma observe_embedding_rejected w this a description importance :
  agents w !! this = Some a ->
  getImportanceScore (Agent.engine a) (length (trace w)) description = Some importance ->
  getEmbedding (Agent.engine a) (S (length (trace w))) description = None ->
  observe env this description w
  = (set_trace (fun t => t ++ [GetImportanceScore description; GetEmbedding description]) w,
     Throw ScoringUnavailable).
Proof.
  intros Ha Hi He.
  unfold observe, getAgent, await, external, mbind, M_bind.
  rewrite Ha. simpl. rewrite Hi. simpl.
  rewrite length_app, Nat.add_1_r, He. simpl.
  unfold set_trace. simpl. rewrite <- app_assoc. reflexivity.
Qed.

Lemma observe_fulfilled w this a description importance embedding :
  agents w !! this = Some a ->
  getImportanceScore (Agent.engine a) (length (trace w)) description = Some importance ->
  getEmbedding (Agent.engine a) (S (length (trace w))) description = Some embedding ->
  observe env this description w
  = (set_agents
       <[this := pushObservation
                   (observation_at env a (length (trace w)) description importance embedding) a]>
       (set_trace
          (fun t => t ++ [GetImportanceScore description; GetEmbedding description;
                          DateNow; DateNow]) w),
     Return tt).
Proof.
  intros Ha Hi He.
  unfold observe, getAgent, await, external, dateNow, setAgent, modify,
    mbind, M_bind, mret, M_ret.
  rewrite Ha. simpl. rewrite Hi. simpl.
  rewrite length_app, Nat.add_1_r, He. simpl. rewrite Ha. simpl.
  unfold set_agents, set_trace, observation_at. simpl.
  rewrite !length_app. simpl.
  replace (length (trace w) + 1 + 1) with (length (trace w) + 2) by lia.
  replace (length (trace w) + 2 + 1) with (length (trace w) + 3) by lia.
  rewrite <- !app_assoc. reflexivity.
Qed.

End Observe.

Section ObserveProperties.
Variable env : Env.

(** The three outcomes of [observe], read backwards. *)
Lemma observe_returns_inv w w' this a description :
  agents w !! this = Some a ->
  observe env this description w = (w', Return tt) ->
  exists importance embedding,
    getImportanceScore (Agent.engine a) (length (trace w)) description = Some importance
    /\ getEmbedding (Agent.engine a) (S (length (trace w))) description = Some embedding
    /\ w' = set_agents
              <[this := pushObservation
                          (observation_at env a (length (trace w)) description
                             importance embedding) a]>
              (set_trace
                 (fun t => t ++ [GetImportanceScore description;
                                 GetEmbedding description; DateNow; DateNow]) w).
Proof.
  intros Ha Hrun.
  destruct (getImportanceScore (Agent.engine a) (length (trace w)) description)
    as [importance|] eqn:Hi.
  - destruct (getEmbedding (Agent.engine a) (S (length (trace w))) description)
      as [embedding|] eqn:He.
    + rewrite (observe_fulfilled env w this a description importance embedding)
        in Hrun by assumption.
      exists importance, embedding. by inversion Hrun.
    + rewrite (observe_embedding_rejected env w this a description importance)
        in Hrun by assumption.
      discriminate.
  - rewrite (observe_importance_rejected env w this a description) in Hrun
      by assumption.
    discriminate.
Qed.

(** C2.  When the engine rejects the request for the importance score, or
    the request for the embedding, [observe] fails with
    [ScoringUnavailable] and leaves every agent as it was: the agent's
    memory stream has gained no memory and its counters are unchanged (so
    are the service and the characters; only the log of calls has grown). *)
Theorem observe_scoring_unavailable w this a description :
  agents w !! this = Some a ->
  getImportanceScore (Agent.engine a) (length (trace w)) description = None
  \/ getEmbedding (Agent.engine a) (S (length (trace w))) description = None ->
  exists w',
    observe env this description w = (w', Throw ScoringUnavailable)
    /\ agents w' !! this = Some a
    /\ agents w' = agents w
    /\ interactions w' = interactions w
    /\ memories w' = memories w
    /\ characters w' = characters w
    /\ scene w' = scene w.
Proof.
  intros Ha Hrejected.
  destruct (getImportanceScore (Agent.engine a) (length (trace w)) description)
    as [importance|] eqn:Hi.
  - destruct Hrejected as [?|He]; [discriminate|].
    eexists. split.
    + by apply (observe_embedding_rejected env w this a description importance).
    + by repeat split.
  - eexists. split.
    + by apply (observe_importance_rejected env w this a description).
    + by repeat split.
Qed.

(** C7, as the code has it.  A successful [observe] appends exactly one
    memory to the end of the agent's stream and adds one to the counter of
    observations; the memories stored before, the other counters, the other
    fields of the agent and all other agents are unchanged.  [createdAt]
    and [latestAccess] are stamped from two successive readings of the
    clock, [createdAt] from the first: they are equal whenever the clock
    shows the same time at both readings. *)
Theorem observe_appends_one w w' this a description :
  agents w !! this = Some a ->
  observe env this description w = (w', Return tt) ->
  exists a' b,
    agents w' = <[this := a']> (agents w)
    /\ Agent.memoryStream a' = Agent.memoryStream a ++ [Observation b]
    /\ BaseMemory.id b = obsId (observation (Agent.memoryCount a) + 1)
    /\ BaseMemory.description b = description
    /\ BaseMemory.createdAt b = dateToString env (clock env (length (trace w) + 2))
    /\ BaseMemory.latestAccess b = dateToString env (clock env (length (trace w) + 3))
    /\ (clock env (length (trace w) + 2) = clock env (length (trace w) + 3) ->
        BaseMemory.createdAt b = BaseMemory.latestAccess b)
    /\ observation (Agent.memoryCount a') = observation (Agent.memoryCount a) + 1
    /\ reflection (Agent.memoryCount a') = reflection (Agent.memoryCount a)
    /\ plan (Agent.memoryCount a') = plan (Agent.memoryCount a)
    /\ conversation (Agent.memoryCount a') = conversation (Agent.memoryCount a)
    /\ (forall other, other <> this -> agents w' !! other = agents w !! other).
Proof.
  intros Ha Hrun.
  destruct (observe_returns_inv w w' this a description Ha Hrun)
    as (importance & embedding & _ & _ & ->).
  eexists _, _. split; [reflexivity|].
  split; [reflexivity|]. simpl.
  repeat split; try reflexivity.
  - intros ->. reflexivity.
  - intros other Hother. by apply lookup_insert_ne.
Qed.

(** The new identifiers of a run of successful [observe] calls. *)
Lemma observeAll_returns descriptions : forall w w' this a,
  agents w !! this = Some a ->
  observeAll env this descriptions w = (w', Return tt) ->
  exists a' news,
    agents w' !! this = Some a'
    /\ Agent.memoryStream a' = Agent.memoryStream a ++ news
    /\ map memoryId news
       = map obsId (seq (S (observation (Agent.memoryCount a))) (length descriptions))
    /\ map (fun m => BaseMemory.description (base m)) news = descriptions
    /\ observation (Agent.memoryCount a')
       = observation (Agent.memoryCount a) + length descriptions.
Proof.
  induction descriptions as [|description rest IH]; intros w w' this a Ha Hrun.
  - inversion Hrun; subst. exists a, []. rewrite app_nil_r. simpl.
    repeat split; [assumption|lia].
  - simpl in Hrun. unfold mbind, M_bind in Hrun.
    destruct (observe env this description w) as [w1 [[]|e]] eqn:Hfirst;
      [|discriminate].
    destruct (observe_returns_inv w w1 this a description Ha Hfirst)
      as (importance & embedding & _ & _ & Hw1).
    set (m := observation_at env a (length (trace w)) description importance embedding)
      in Hw1.
    assert (Ha1 : agents w1 !! this = Some (pushObservation m a)).
    { rewrite Hw1. simpl. apply lookup_insert_eq. }
    destruct (IH w1 w' this _ Ha1 Hrun) as (a' & news & Ha' & Hstream & Hids & Hds & Hcount).
    exists a', (m :: news). simpl in *.
    split; [assumption|]. split; [by rewrite Hstream, <- app_assoc|].
    split; [|split].
    + rewrite Hids. unfold memoryId. simpl.
      by replace (observation (Agent.memoryCount a) + 1)
        with (S (observation (Agent.memoryCount a))) by lia.
    + by rewrite Hds.
    + lia.
Qed.

Lemma obsId_inj n1 n2 : obsId n1 = obsId n2 -> n1 = n2.
Proof.
  unfold obsId. intros H. simpl in H. injection H as H. by apply (inj pretty).
Qed.

Lemma id_lt_obsId n1 n2 : id_lt (obsId n1) (obsId n2) <-> n1 < n2.
Proof.
  split.
  - intros (m1 & m2 & H1 & H2 & Hlt).
    apply obsId_inj in H1, H2. by subst.
  - intros Hlt. by exists n1, n2.
Qed.

Lemma id_lt_irrefl s : ~ id_lt s s.
Proof.
  intros (n1 & n2 & H1 & H2 & Hlt). rewrite H1 in H2.
  apply obsId_inj in H2. lia.
Qed.

Lemma obsIds_increasing start count :
  StronglySorted id_lt (map obsId (seq start count)).
Proof.
  revert start. induction count as [|count IH]; intros start; simpl.
  - constructor.
  - constructor; [apply IH|].
    apply Forall_forall. intros s Hs.
    apply list_elem_of_In, in_map_iff in Hs. destruct Hs as (n & <- & Hn).
    apply in_seq in Hn. apply id_lt_obsId. lia.
Qed.

Lemma obsIds_NoDup start count : NoDup (map obsId (seq start count)).
Proof.
  apply NoDup_fmap_2.
  - intros n1 n2. apply obsId_inj.
  - apply NoDup_seq.
Qed.

(** Every outcome of [observe]. *)
Lemma observe_outcome w this a description :
  agents w !! this = Some a ->
  exists calls,
    Forall (fun c => isReply c = false) calls
    /\ (observe env this description w = (log calls w, Throw ScoringUnavailable)
        /\ ~ scoringAvailable (Agent.engine a)
        \/ exists importance embedding,
             observe env this description w
             = (set_agents
                  <[this := pushObservation
                              (observation_at env a (length (trace w)) description
                                 importance embedding) a]>
                  (log calls w),
                Return tt)).
Proof.
  intros Ha.
  destruct (getImportanceScore (Agent.engine a) (length (trace w)) description)
    as [importance|] eqn:Hi.
  - destruct (getEmbedding (Agent.engine a) (S (length (trace w))) description)
      as [embedding|] eqn:He.
    + exists [GetImportanceScore description; GetEmbedding description;
              DateNow; DateNow].
      split; [by repeat constructor|].
      right. exists importance, embedding. by apply observe_fulfilled.
    + exists [GetImportanceScore description; GetEmbedding description].
      split; [by repeat constructor|]. left. split.
      * by eapply observe_embedding_rejected.
      * intros Havailable.
        destruct (Havailable (S (length (trace w))) description) as [_ [? Hsome]].
        congruence.
  - exists [GetImportanceScore description].
    split; [by repeat constructor|]. left. split.
    + by eapply observe_importance_rejected.
    + intros Havailable.
      destruct (Havailable (length (trace w)) description) as [[? Hsome] _].
      congruence.
Qed.

End ObserveProperties.

Section Identifiers.
Variable env : Env.

Lemma newAgent_counted engine id name age personality settings location :
  counted (newAgent engine id name age personality settings location).
Proof. reflexivity. Qed.

Lemma observationIds_app a a' news :
  Agent.memoryStream a' = Agent.memoryStream a ++ news ->
  Forall (fun m => isObservation m = true) news ->
  observationIds a' = observationIds a ++ map memoryId news.
Proof.
  intros Hstream Hobs. unfold observationIds.
  rewrite Hstream, List.filter_app, map_app. clear Hstream. f_equal. f_equal.
  induction Hobs as [|m news Hm _ IH]; simpl; [reflexivity|].
  rewrite Hm. f_equal. exact IH.
Qed.

Lemma observeAll_observations descriptions : forall w w' this a,
  agents w !! this = Some a ->
  observeAll env this descriptions w = (w', Return tt) ->
  exists a' news,
    agents w' !! this = Some a'
    /\ Agent.memoryStream a' = Agent.memoryStream a ++ news
    /\ Forall (fun m => isObservation m = true) news.
Proof.
  induction descriptions as [|description rest IH]; intros w w' this a Ha Hrun.
  - inversion Hrun; subst. exists a, []. by rewrite app_nil_r.
  - simpl in Hrun. unfold mbind, M_bind in Hrun.
    destruct (observe env this description w) as [w1 [[]|e]] eqn:Hfirst;
      [|discriminate].
    destruct (observe_returns_inv env w w1 this a description Ha Hfirst)
      as (importance & embedding & _ & _ & Hw1).
    set (m := observation_at env a (length (trace w)) description importance embedding)
      in Hw1.
    assert (Ha1 : agents w1 !! this = Some (pushObservation m a)).
    { rewrite Hw1. simpl. apply lookup_insert_eq. }
    destruct (IH w1 w' this _ Ha1 Hrun) as (a' & news & Ha' & Hstream & Hobs).
    exists a', (m :: news). simpl in *.
    split; [assumption|]. split; [by rewrite Hstream, <- app_assoc|].
    constructor; [reflexivity|assumption].
Qed.

Lemma pushObservation_counted a moment description importance embedding :
  counted a ->
  counted (pushObservation
             (observation_at env a moment description importance embedding) a).
Proof.
  unfold counted, observationIds. intros Hcounted. simpl.
  rewrite List.filter_app, map_app, Hcounted. simpl.
  rewrite Nat.add_1_r, seq_S, map_app. simpl.
  unfold memoryId. simpl. by rewrite Nat.add_1_r.
Qed.

(** Whatever its outcome, [observe] keeps the counters of all agents in
    line with their streams: an identifier once handed out is never handed
    out again, however the calls on the agents are mixed. *)
Lemma observe_keeps_counted w w' r this description :
  observe env this description w = (w', r) ->
  (forall k a, agents w !! k = Some a -> counted a) ->
  forall k a, agents w' !! k = Some a -> counted a.
Proof.
  intros Hrun Hcounted k a' Hk.
  destruct (agents w !! this) as [a|] eqn:Ha.
  - destruct (observe_outcome env w this a description Ha)
      as (calls & _ & [[Hfail _]|(importance & embedding & Hok)]).
    + rewrite Hfail in Hrun. injection Hrun as <- <-. by eapply Hcounted.
    + rewrite Hok in Hrun. injection Hrun as <- <-. simpl in Hk.
      destruct (decide (this = k)) as [->|Hne].
      * rewrite lookup_insert_eq in Hk. injection Hk as <-.
        apply pushObservation_counted. by eapply Hcounted.
      * rewrite lookup_insert_ne in Hk by assumption. by eapply Hcounted.
  - unfold observe, getAgent, mbind, M_bind in Hrun. rewrite Ha in Hrun.
    injection Hrun as <- <-. by eapply Hcounted.
Qed.

(** C3.  After a run of successful [observe] calls on one agent, the
    identifiers handed out are [obs_(c+1)], [obs_(c+2)], ... where [c] is
    the counter of observations before the run: the counter grows by one
    with every call and decides the identifier.  The new identifiers are
    strictly increasing and pairwise distinct; and for an agent whose
    counter accounts for its stored observations (every new agent) this
    holds of all observations of its stream, so that no identifier is used
    twice. *)
Theorem observe_ids_increasing descriptions w w' this a :
  agents w !! this = Some a ->
  observeAll env this descriptions w = (w', Return tt) ->
  exists a' news,
    agents w' !! this = Some a'
    /\ Agent.memoryStream a' = Agent.memoryStream a ++ news
    /\ map memoryId news
       = map obsId (seq (S (observation (Agent.memoryCount a))) (length descriptions))
    /\ observation (Agent.memoryCount a')
       = observation (Agent.memoryCount a) + length descriptions
    /\ StronglySorted id_lt (map memoryId news)
    /\ NoDup (map memoryId news)
    /\ (counted a ->
        counted a'
        /\ StronglySorted id_lt (observationIds a')
        /\ NoDup (observationIds a')).
Proof.
  intros Ha Hrun.
  destruct (observeAll_returns env descriptions w w' this a Ha Hrun)
    as (a' & news & Ha' & Hstream & Hids & _ & Hcount).
  destruct (observeAll_observations descriptions w w' this a Ha Hrun)
    as (a'' & news' & Ha'' & Hstream' & Hobs).
  rewrite Ha' in Ha''. injection Ha'' as <-.
  rewrite Hstream in Hstream'. apply app_inv_head in Hstream'. subst news'.
  exists a', news.
  split; [assumption|]. split; [assumption|]. split; [assumption|].
  split; [assumption|].
  split; [rewrite Hids; apply obsIds_increasing|].
  split; [rewrite Hids; apply obsIds_NoDup|].
  intros Hcounted.
  assert (Hall : observationIds a'
                 = map obsId (seq 1 (observation (Agent.memoryCount a)
                                     + length descriptions))).
  { rewrite (observationIds_app a a' news Hstream Hobs), Hcounted, Hids.
    by rewrite <- map_app, <- seq_app. }
  split; [unfold counted; by rewrite Hall, Hcount|].
  rewrite Hall. split; [apply obsIds_increasing|apply obsIds_NoDup].
Qed.

End Identifiers.

(** * Properties of the interaction service *)

(** ** Doubles that are integers

    Below [2 ^ 53] in magnitude the integers are doubles, and on them the
    subtraction, the addition and the square of the service's computation
    are exact as long as their result stays below [2 ^ 53]. *)

Section Rounding.
Open Scope Z_scope.




















End Rounding.

Section Integers.
Open Scope Z_scope.








End Integers.

Section SquareRoot.
Open Scope Z_scope.











End SquareRoot.

Section Symmetry.
Open Scope Z_scope.

Lemma binary_round_aux_opp s m e l :
  binary_round_aux Double.prec Double.emax (negb s) m e l
  = SFopp (binary_round_aux Double.prec Double.emax s m e l).
Proof.
  unfold binary_round_aux.
  destruct (shr_fexp _ _ m e l) as [mrs1 e1].
  destruct (shr_fexp _ _ _ e1 loc_Exact) as [mrs2 e2].
  destruct (shr_m mrs2); [reflexivity| |reflexivity].
  by destruct (e2 <=? _).
Qed.

Lemma binary_normalize_swap z e :
  sameMagnitude (binary_normalize Double.prec Double.emax z e false)
    (binary_normalize Double.prec Double.emax (- z) e false).
Proof.
  destruct z as [|p|p]; [by left| |]; right; simpl; unfold binary_round;
    destruct (shl_align _ _ _) as [mz ez].
  - apply (binary_round_aux_opp false).
  - apply (binary_round_aux_opp true).
Qed.

Lemma sub_swap u v : sameMagnitude (Double.sub u v) (Double.sub v u).
Proof.
  destruct u as [su|su| |su mu eu], v as [sv|sv| |sv mv ev];
    try (destruct su); try (destruct sv);
    try (by left); try (by right).
  all: unfold Double.sub, SFsub; rewrite (Z.min_comm ev eu);
    match goal with
    | |- sameMagnitude (binary_normalize _ _ (?A - ?B) _ _) _ =>
        replace (B - A) with (- (A - B)) by lia
    end; apply binary_normalize_swap.
Qed.

Lemma square_same u v : sameMagnitude u v -> Double.square v = Double.square u.
Proof.
  intros [->| ->]; [reflexivity|].
  by destruct u as [[]|[]| |[] m e].
Qed.

Lemma canInteract_swap a b : canInteract a b = canInteract b a.
Proof.
  unfold canInteract.
  by rewrite (square_same _ _ (sub_swap (x a) (x b))),
    (square_same _ _ (sub_swap (y a) (y b))).
Qed.

Lemma sub_self u :
  Double.sub u u = if Double.isFinite u then S754_zero false else S754_nan.
Proof.
  destruct u as [[]|[]| |s m e]; try reflexivity.
  unfold Double.sub, SFsub. by rewrite Z.sub_diag.
Qed.

Lemma canInteract_self a : canInteract a a = Double.isFinite (x a) && Double.isFinite (y a).
Proof.
  unfold canInteract. rewrite !sub_self.
  by destruct (Double.isFinite (x a)), (Double.isFinite (y a)).
Qed.


End Symmetry.

Section Exact.
Open Scope Z_scope.


End Exact.

Section Proximity.
Open Scope Z_scope.


(** The two scenes of the specification, on a horizontal line. *)
Example canInteract_at_80 : canInteract origin eastBy80 = true.
Proof. by vm_compute. Qed.

Example canInteract_at_150 : canInteract origin eastBy150 = false.
Proof. by vm_compute. Qed.

End Proximity.

Section RecentInteractions.

#[local] Instance newerFirst_trans : Transitive newerFirst.
Proof. unfold newerFirst. intros i j k ? ?. lia. Qed.

Lemma insertByTimestamp_Permutation i l : insertByTimestamp i l ≡ₚ i :: l.
Proof.
  induction l as [|j l IH]; simpl; [reflexivity|].
  destruct (Interaction.timestamp j <=? Interaction.timestamp i)%Z; [reflexivity|].
  rewrite IH. apply Permutation_swap.
Qed.

Lemma insertByTimestamp_sorted i l :
  StronglySorted newerFirst l -> StronglySorted newerFirst (insertByTimestamp i l).
Proof.
  induction 1 as [|j l Hsorted IH Hj]; simpl.
  - repeat constructor.
  - destruct (Z.leb_spec (Interaction.timestamp j) (Interaction.timestamp i)) as [Hle|Hlt].
    + constructor; [by constructor|].
      constructor; [exact Hle|].
      eapply Forall_impl; [exact Hj|]. unfold newerFirst. intros k ?. lia.
    + constructor; [exact IH|].
      rewrite insertByTimestamp_Permutation. constructor; [|exact Hj].
      unfold newerFirst. lia.
Qed.

Lemma sortByTimestamp_Permutation l : sortByTimestamp l ≡ₚ l.
Proof.
  induction l as [|i l IH]; simpl; [reflexivity|].
  by rewrite insertByTimestamp_Permutation, IH.
Qed.

Lemma sortByTimestamp_sorted l : StronglySorted newerFirst (sortByTimestamp l).
Proof.
  induction l as [|i l IH]; simpl; [constructor|].
  by apply insertByTimestamp_sorted.
Qed.

Lemma StronglySorted_take {A} (R : relation A) n (l : list A) :
  StronglySorted R l -> StronglySorted R (take n l).
Proof.
  intros H. rewrite <- (take_drop n l) in H.
  by apply StronglySorted_app_1_l in H.
Qed.

Lemma slice0_length {A} (limit : Z) (xs : list A) :
  (0 <= limit)%Z -> length (slice0 limit xs) <= Z.to_nat limit.
Proof.
  intros Hlimit. unfold slice0.
  destruct (Z.ltb_spec limit 0) as [?|_]; [lia|].
  rewrite length_take. lia.
Qed.

Lemma slice0_take {A} (limit : Z) (xs : list A) :
  (0 <= limit)%Z -> slice0 limit xs = take (Z.to_nat limit) xs.
Proof.
  intros Hlimit. unfold slice0.
  destruct (Z.ltb_spec limit 0) as [?|_]; [lia|].
  destruct (Z.min_spec limit (Z.of_nat (length xs))) as [[? ->]|[? ->]];
    [reflexivity|].
  rewrite Nat2Z.id, firstn_all. symmetry. apply take_ge. lia.
Qed.

(** C10.  For every state of the service and every limit [n] that is a
    count ([0 <= n]; [10] when the argument is left out),
    [getRecentInteractions(n)] returns at most [n] interactions, the most
    recent first (timestamps never increase along the result): the first
    [n] of the stored interactions once these are sorted, which the call
    does in place.  For an agent without recorded memories
    [getAgentMemories] returns the empty list and does not fail. *)
Theorem getRecentInteractions_sorted (limit : option Z) (w : World) :
  (0 <= default 10 limit)%Z ->
  (exists w' recent,
     getRecentInteractions limit w = (w', Return recent)
     /\ length recent <= Z.to_nat (default 10%Z limit)
     /\ StronglySorted newerFirst recent
     /\ interactions w' ≡ₚ interactions w
     /\ StronglySorted newerFirst (interactions w')
     /\ recent = take (Z.to_nat (default 10%Z limit)) (interactions w'))
  /\ (forall agentId,
        memories w !! agentId = None ->
        getAgentMemories agentId w = (w, Return [])).
Proof.
  intros Hlimit. split.
  - eexists _, _. split; [reflexivity|]. simpl.
    split; [by apply slice0_length|].
    split; [|split; [apply sortByTimestamp_Permutation|
             split; [apply sortByTimestamp_sorted|by apply slice0_take]]].
    rewrite slice0_take by assumption.
    apply StronglySorted_take, sortByTimestamp_sorted.
  - intros agentId Hnone. unfold getAgentMemories, get, mbind, M_bind, mret, M_ret.
    by rewrite Hnone.
Qed.

End RecentInteractions.

(** * Properties of [createInteraction] *)

Section CreateInteraction.
Variable env : Env.

Lemma log_log calls1 calls2 w : log calls2 (log calls1 w) = log (calls1 ++ calls2) w.
Proof. unfold log, set_trace. simpl. by rewrite app_assoc. Qed.

Lemma log_nil w : log [] w = w.
Proof. destruct w. unfold log, set_trace. simpl. by rewrite app_nil_r. Qed.

Lemma replies_log calls w :
  replies (log calls w) = replies w ++ List.filter isReply calls.
Proof. unfold replies, log. simpl. apply List.filter_app. Qed.

Lemma replies_log_quiet calls w :
  Forall (fun c => isReply c = false) calls -> replies (log calls w) = replies w.
Proof.
  intros Hquiet. rewrite replies_log.
  replace (List.filter isReply calls) with (@nil Call); [by rewrite app_nil_r|].
  induction Hquiet as [|c calls Hc _ IH]; simpl; [reflexivity|]. by rewrite Hc.
Qed.

Lemma filterRecent_eval knownFacts : forall w,
  filterRecent env knownFacts w
  = (log (replicate (length knownFacts) DateNow) w,
     Return (keptAt env (length (trace w)) knownFacts)).
Proof.
  induction knownFacts as [|m rest IH]; intros w; simpl.
  - by rewrite log_nil.
  - unfold mbind, M_bind, dateNow, external. simpl. rewrite IH. simpl.
    unfold mret, M_ret. rewrite length_app, Nat.add_1_r.
    f_equal. unfold log, set_trace. simpl. by rewrite <- app_assoc.
Qed.

Lemma generateConversation_eval w initiator target i t :
  agents w !! initiator = Some i ->
  agents w !! target = Some t ->
  generateConversation initiator target w
  = (log [Reply (conversationMessage t) initiator (conversationContext i t)] w,
     Return (replyOrElse i (length (trace w)) (conversationMessage t) initiator
               (conversationContext i t) conversationFailed)).
Proof.
  intros Hi Ht.
  unfold generateConversation, getAgent, try_catch, await, external, replyOrElse,
    mbind, M_bind, mret, M_ret, throw.
  rewrite Hi, Ht. simpl.
  by destruct (reply (Agent.engine i) _ _ _ _).
Qed.

Lemma generateRumor_eval w agent a knownFacts :
  agents w !! agent = Some a ->
  let context :=
    rumorContext a
      (join nl (map ServiceMemory.content (keptAt env (length (trace w)) knownFacts))) in
  generateRumor env agent knownFacts w
  = (log (replicate (length knownFacts) DateNow ++ [Reply rumorMessage agent context]) w,
     Return (replyOrElse a (length (trace w) + length knownFacts) rumorMessage agent
               context rumorFailed)).
Proof.
  intros Ha context.
  unfold generateRumor, mbind, M_bind. rewrite filterRecent_eval.
  unfold getAgent, try_catch, await, external, replyOrElse,
    mbind, M_bind, mret, M_ret, throw.
  simpl. rewrite Ha. simpl. rewrite length_app, length_replicate.
  fold context. rewrite <- log_log.
  by destruct (reply (Agent.engine a) _ _ _ _).
Qed.

Lemma recordPart_eval w i t type content :
  exists w',
    recordPart env i t type content w
    = (w', Return (interactionAt env i t type content (length (trace w))))
    /\ agents w' = agents w
    /\ interactions w'
       = interactions w ++ [interactionAt env i t type content (length (trace w))]
    /\ characters w' = characters w
    /\ scene w' = scene w
    /\ trace w' = trace w ++ [MathRandom; DateNow; DateNow; DateNow].
Proof.
  eexists. split.
  - unfold recordPart, recordMemory, mathRandom, dateNow, external, modify,
      interactionAt, mbind, M_bind, mret, M_ret. simpl.
    rewrite !length_app. simpl. rewrite !Nat.add_1_r. reflexivity.
  - simpl. rewrite <- !app_assoc. by repeat split.
Qed.

Lemma createInteraction_sections w initiator target i t type :
  agents w !! initiator = Some i ->
  agents w !! target = Some t ->
  createInteraction env initiator target type w
  = (content ← generateContent env initiator target i t type;
     interaction ← recordPart env i t type content;
     observe env initiator content;;
     observe env target content;;
     mret (Some interaction)) w.
Proof.
  intros Hi Ht.
  unfold createInteraction, generateContent, recordPart, getAgent, mbind, M_bind.
  rewrite Hi, Ht.
  destruct type; simpl;
    repeat match goal with
           | |- context [match ?m with (_, _) => _ end] =>
               destruct m as [? [?|?]]; simpl; try reflexivity
           end.
Qed.

Lemma generateContent_logs w initiator target i t type :
  agents w !! initiator = Some i ->
  agents w !! target = Some t ->
  exists calls content,
    generateContent env initiator target i t type w = (log calls w, Return content).
Proof.
  intros Hi Ht. destruct type; simpl.
  - eexists _, _. by apply generateConversation_eval.
  - exists [], (observationContent i t). by rewrite log_nil.
  - eexists _, _. unfold mbind, M_bind, get.
    by apply generateRumor_eval.
Qed.

Lemma observation_at_inv a moment description importance embedding :
  exists b,
    observation_at env a moment description importance embedding = Observation b
    /\ BaseMemory.description b = description.
Proof. by eexists. Qed.

Lemma pushObservation_engine m a :
  Agent.engine (pushObservation m a) = Agent.engine a.
Proof. reflexivity. Qed.

(** Every outcome of [createInteraction]: the interaction is recorded in
    any case; then either the initiator's [observe] fails, or the target's
    does after the initiator's has succeeded, or both succeed and the
    interaction is returned. *)
Lemma createInteraction_outcome w initiator target i t type :
  agents w !! initiator = Some i ->
  agents w !! target = Some t ->
  exists calls content w' r,
    generateContent env initiator target i t type w = (log calls w, Return content)
    /\ createInteraction env initiator target type w = (w', r)
    /\ interactions w'
       = interactions w
         ++ [interactionAt env i t type content (length (trace w) + length calls)]
    /\ replies w' = replies w ++ List.filter isReply calls
    /\ characters w' = characters w
    /\ scene w' = scene w
    /\ (scoringAvailable (Agent.engine i) -> scoringAvailable (Agent.engine t) ->
        exists interaction, r = Return (Some interaction))
    /\ (r = Throw ScoringUnavailable /\ agents w' = agents w
        \/ r = Throw ScoringUnavailable
           /\ (exists b,
                 agents w' = <[initiator := pushObservation (Observation b) i]> (agents w)
                 /\ BaseMemory.description b = content)
        \/ r = Return (Some (interactionAt env i t type content
                               (length (trace w) + length calls)))
           /\ (exists b b' t',
                 <[initiator := pushObservation (Observation b) i]> (agents w) !! target
                 = Some t'
                 /\ agents w'
                    = <[target := pushObservation (Observation b') t']>
                        (<[initiator := pushObservation (Observation b) i]> (agents w))
                 /\ BaseMemory.description b = content
                 /\ BaseMemory.description b' = content)).
Proof.
  intros Hi Ht.
  destruct (generateContent_logs w initiator target i t type Hi Ht)
    as (calls & content & Hgen).
  destruct (recordPart_eval (log calls w) i t type content)
    as (w2 & Hrec & Hag2 & Hint2 & Hch2 & Hsc2 & Htr2).
  assert (Hlen : length (trace (log calls w)) = length (trace w) + length calls).
  { unfold log. simpl. apply length_app. }
  rewrite Hlen in Hrec, Hint2.
  assert (Hrep2 : replies w2 = replies w ++ List.filter isReply calls).
  { unfold replies at 1. rewrite Htr2, List.filter_app. simpl.
    rewrite app_nil_r. apply replies_log. }
  assert (Hi2 : agents w2 !! initiator = Some i) by by rewrite Hag2.
  pose proof (createInteraction_sections w initiator target i t type Hi Ht) as Hrun.
  unfold mbind, M_bind in Hrun. rewrite Hgen, Hrec in Hrun.
  exists calls, content.
  destruct (observe_outcome env w2 initiator i content Hi2)
    as (calls1 & Hquiet1 & [[Hfail1 Hna1]|(importance1 & embedding1 & Hok1)]).
  { rewrite Hfail1 in Hrun. eexists _, _.
    split; [exact Hgen|]. split; [exact Hrun|].
    split; [exact Hint2|].
    split; [by rewrite replies_log_quiet|].
    split; [exact Hch2|]. split; [exact Hsc2|].
    split; [intros Havailable; contradiction|].
    left. by split. }
  destruct (observation_at_inv i (length (trace w2)) content importance1 embedding1)
    as (b1 & Hb1 & Hd1).
  rewrite Hb1 in Hok1. rewrite Hok1 in Hrun.
  set (m1 := Observation b1) in *.
  set (w3 := set_agents <[initiator := pushObservation m1 i]> (log calls1 w2)) in *.
  assert (Hag3 : agents w3 = <[initiator := pushObservation m1 i]> (agents w)).
  { subst w3. simpl. by rewrite Hag2. }
  assert (Ht3 : exists t', agents w3 !! target = Some t'
                           /\ Agent.engine t' = Agent.engine t).
  { rewrite Hag3. destruct (decide (initiator = target)) as [->|Hne].
    - rewrite lookup_insert_eq. eexists. split; [reflexivity|].
      rewrite Hi in Ht. by injection Ht as <-.
    - rewrite lookup_insert_ne by assumption. by exists t. }
  destruct Ht3 as (t' & Ht3 & Hengine).
  destruct (observe_outcome env w3 target t' content Ht3)
    as (calls2 & Hquiet2 & [[Hfail2 Hna2]|(importance2 & embedding2 & Hok2)]).
  { rewrite Hfail2 in Hrun. eexists _, _.
    split; [exact Hgen|]. split; [exact Hrun|].
    split; [exact Hint2|].
    split; [by rewrite replies_log_quiet, <- Hrep2; [apply replies_log_quiet|]|].
    split; [exact Hch2|]. split; [exact Hsc2|].
    split; [intros _ Havailable; rewrite Hengine in Hna2; contradiction|].
    right. left. split; [reflexivity|].
    exists b1. by split. }
  destruct (observation_at_inv t' (length (trace w3)) content importance2 embedding2)
    as (b2 & Hb2 & Hd2).
  rewrite Hb2 in Hok2. rewrite Hok2 in Hrun. eexists _, _.
  split; [exact Hgen|]. split; [exact Hrun|].
  split; [exact Hint2|].
  split; [|split; [exact Hch2|split; [exact Hsc2|split; [by eexists|]]]].
  { transitivity (replies (log calls2 w3)); [reflexivity|].
    rewrite replies_log_quiet by assumption.
    transitivity (replies (log calls1 w2)); [reflexivity|].
    by rewrite replies_log_quiet. }
  right. right. split; [reflexivity|].
  exists b1, b2, t'. fold m1. rewrite <- Hag3.
  split; [exact Ht3|]. by split.
Qed.

Lemma log_inj calls1 calls2 w : log calls1 w = log calls2 w -> calls1 = calls2.
Proof.
  intros H. apply (f_equal trace) in H. unfold log in H. simpl in H.
  by apply app_inv_head in H.
Qed.



(** C9.  An interaction of kind observation has as content the template
    [<initiator's name> observed <target's name> <goal>], where the goal is
    the target's current goal (['doing something'] when that is empty); the
    content is built from the two agents alone, and the call makes no
    request to the text generation: the list of such requests is the same
    after the call as before, whether the call returns or fails. *)
Theorem observation_is_local w initiator target i t :
  agents w !! initiator = Some i ->
  agents w !! target = Some t ->
  exists w' r interaction,
    createInteraction env initiator target observation_ w = (w', r)
    /\ interactions w' = interactions w ++ [interaction]
    /\ Interaction.content interaction
       = Agent.name i +:+ " observed " +:+ Agent.name t +:+ " " +:+
         (if decide (currentGoal (Agent.personality t) = "")
          then "doing something"
          else currentGoal (Agent.personality t))
    /\ (r = Return (Some interaction) \/ r = Throw ScoringUnavailable)
    /\ replies w' = replies w.
Proof.
  intros Hi Ht.
  destruct (createInteraction_outcome w initiator target i t observation_ Hi Ht)
    as (calls & content & w' & r & Hgen & Hrun & Hrecord & Hreplies & _ & _ & _ & Hcases).
  simpl in Hgen. unfold mret, M_ret in Hgen.
  injection Hgen as Hlog <-.
  assert (calls = []) as ->.
  { symmetry. apply (log_inj _ _ w). by rewrite log_nil. }
  exists w', r, (interactionAt env i t observation_ (observationContent i t)
                   (length (trace w) + 0)).
  split; [exact Hrun|]. split; [exact Hrecord|]. split; [reflexivity|].
  split; [|by rewrite Hreplies, app_nil_r].
  destruct Hcases as [[-> _]|[[-> _]|[-> _]]]; auto.
Qed.









End CreateInteraction.

(** * The cooldown of [AgentCharacter] *)

Section Cooldown.
Variable env : Env.

(** Within the interval after the last interaction nothing is attempted. *)
Lemma checkForInteractions_cooling w this me :
  characters w !! this = Some me ->
  (clock env (length (trace w)) - AgentCharacter.lastInteractionTime me
   < minInteractionInterval)%Z ->
  checkForInteractions env this w = (log [DateNow] w, Return tt).
Proof.
  intros Hme Hcooling.
  unfold checkForInteractions, dateNow, external, getCharacter, mbind, M_bind,
    mret, M_ret.
  simpl. rewrite Hme. apply Z.ltb_lt in Hcooling. by rewrite Hcooling.
Qed.

Lemma checkForInteractions_ready w this me others :
  characters w !! this = Some me ->
  scene w = Some others ->
  (minInteractionInterval
   <= clock env (length (trace w)) - AgentCharacter.lastInteractionTime me)%Z ->
  checkForInteractions env this w
  = forEach others (interactWith env this) (log [DateNow] w).
Proof.
  intros Hme Hscene Hready.
  unfold checkForInteractions, dateNow, external, getCharacter, get, mbind, M_bind,
    mret, M_ret.
  simpl. rewrite Hme. apply Z.ltb_ge in Hready. rewrite Hready. simpl.
  by rewrite Hscene.
Qed.

Lemma interactWith_self this : interactWith env this this = mret tt.
Proof. unfold interactWith. by rewrite decide_True. Qed.

Lemma interactWith_near w this otherCharacter me other :
  otherCharacter <> this ->
  characters w !! this = Some me ->
  characters w !! otherCharacter = Some other ->
  canInteract (AgentCharacter.position me) (AgentCharacter.position other) = true ->
  interactWith env this otherCharacter w = approach env this otherCharacter me other w.
Proof.
  intros Hother Hme Hoc Hnear.
  unfold interactWith, getCharacter, mbind, M_bind.
  rewrite decide_False by assumption. by rewrite Hme, Hoc, Hnear.
Qed.

Lemma interactWith_far w this otherCharacter me other :
  otherCharacter <> this ->
  characters w !! this = Some me ->
  characters w !! otherCharacter = Some other ->
  canInteract (AgentCharacter.position me) (AgentCharacter.position other) = false ->
  interactWith env this otherCharacter w = (w, Return tt).
Proof.
  intros Hother Hme Hoc Hfar.
  unfold interactWith, getCharacter, mbind, M_bind.
  rewrite decide_False by assumption. by rewrite Hme, Hoc, Hfar.
Qed.

Lemma createInteraction_characters initiator target type w :
  characters (fst (createInteraction env initiator target type w)) = characters w.
Proof.
  destruct (agents w !! initiator) as [i|] eqn:Hi;
    [destruct (agents w !! target) as [t|] eqn:Ht|].
  - destruct (createInteraction_outcome env w initiator target i t type Hi Ht)
      as (calls & content & w' & r & _ & Hrun & _ & _ & Hcharacters & _).
    by rewrite Hrun.
  - unfold createInteraction, getAgent, mbind, M_bind. by rewrite Hi, Ht.
  - unfold createInteraction, getAgent, mbind, M_bind. by rewrite Hi.
Qed.

(** The cooldown timestamps are written only behind a [createInteraction]
    that has returned an interaction. *)
Lemma approach_cooldown w w' r this otherCharacter me other :
  approach env this otherCharacter me other w = (w', r) ->
  (forall c, lastInteractionTimeOf w' c = lastInteractionTimeOf w c)
  \/ exists type w1 interaction,
       createInteraction env (AgentCharacter.agent me) (AgentCharacter.agent other)
         type (log [MathRandom] (log [MathRandom] w))
       = (w1, Return (Some interaction)).
Proof.
  unfold approach, mathRandom, external, mbind, M_bind, mret, M_ret. simpl.
  destruct (Qlt_le_dec _ _); [|intros [= <- <-]; by left].
  match goal with
  | |- context [createInteraction env ?a ?b ?type ?w0] =>
      pose proof (createInteraction_characters a b type w0) as Hcharacters;
      destruct (createInteraction env a b type w0) as [w1 [[interaction|]|e]] eqn:Hrun
  end.
  - intros _. right. by eexists _, _, _.
  - intros [= <- <-]. left. intros c. unfold lastInteractionTimeOf.
    simpl in Hcharacters. by rewrite Hcharacters.
  - intros [= <- <-]. left. intros c. unfold lastInteractionTimeOf.
    simpl in Hcharacters. by rewrite Hcharacters.
Qed.

End Cooldown.

Section OnStage.
Variables positionA positionB : Position.
Hypothesis Hnear : canInteract positionA positionB = true.

(** One pass of Alice over the stage, for a character of Alice [me] and a
    world [w] in which she is ready: only Bob is approached. *)
Lemma pass_over_stage w me other :
  characters w !! 0 = Some me ->
  characters w !! 1 = Some other ->
  scene w = Some [0; 1] ->
  AgentCharacter.position me = positionA ->
  AgentCharacter.position other = positionB ->
  (minInteractionInterval
   <= clock lateEnv (length (trace w)) - AgentCharacter.lastInteractionTime me)%Z ->
  checkForInteractions lateEnv 0 w
  = (approach lateEnv 0 1 me other;; mret tt) (log [DateNow] w).
Proof.
  intros Hme Hother Hscene HpA HpB Hready.
  rewrite (checkForInteractions_ready lateEnv w 0 me [0; 1]) by assumption.
  cbn [forEach]. unfold mbind, M_bind.
  rewrite interactWith_self. cbn [mret M_ret].
  rewrite (interactWith_near lateEnv _ 0 1 me other); try done.
  by rewrite HpA, HpB.
Qed.

Lemma first_pass engine :
  checkForInteractions lateEnv 0 (stage engine positionA positionB)
  = (approach lateEnv 0 1 (newCharacter 0 positionA) (newCharacter 1 positionB);;
     mret tt) (log [DateNow] (stage engine positionA positionB)).
Proof. by apply pass_over_stage. Qed.

Lemma first_pass_outcome :
  let run := checkForInteractions lateEnv 0 (stage muteEngine positionA positionB) in
  snd run = Throw (TypeError "targetText is undefined")
  /\ map encounter (interactions (fst run)) = [("alice", "bob", 1700000000005%Z)]
  /\ lastInteractionTimeOf (fst run) 0 = Some 0%Z
  /\ lastInteractionTimeOf (fst run) 1 = Some 0%Z.
Proof. cbv zeta. rewrite (first_pass muteEngine). by vm_compute. Qed.

Lemma second_pass_outcome :
  let run := checkForInteractions lateEnv 0 (stage muteEngine positionA positionB) in
  let again := checkForInteractions lateEnv 0 (fst run) in
  snd again = Throw (TypeError "targetText is undefined")
  /\ map encounter (interactions (fst again))
     = [("alice", "bob", 1700000000005%Z); ("alice", "bob", 1700000000021%Z)]
  /\ lastInteractionTimeOf (fst again) 0 = Some 0%Z
  /\ lastInteractionTimeOf (fst again) 1 = Some 0%Z.
Proof.
  cbv zeta. rewrite (first_pass muteEngine).
  erewrite pass_over_stage;
    [|by vm_compute|by vm_compute|by vm_compute|by vm_compute|by vm_compute|by vm_compute].
  by vm_compute.
Qed.

(** With an engine whose reply has the separator the pass returns, both
    timestamps are written, and the next pass attempts nothing. *)
Lemma cooldown_after_reply :
  let run := checkForInteractions lateEnv 0 (stage steadyEngine positionA positionB) in
  let again := checkForInteractions lateEnv 0 (fst run) in
  snd run = Return tt
  /\ map encounter (interactions (fst run)) = [("alice", "bob", 1700000000005%Z)]
  /\ lastInteractionTimeOf (fst run) 0 = Some 1700000000016%Z
  /\ lastInteractionTimeOf (fst run) 1 = Some 1700000000017%Z
  /\ snd again = Return tt
  /\ interactions (fst again) = interactions (fst run).
Proof.
  cbv zeta. rewrite (first_pass steadyEngine). by vm_compute.
Qed.

End OnStage.

(** * The properties at work *)

(** C5 at a failing input.  Alice and Bob stand [80] units apart, the text
    generation is down and every draw makes Alice start a conversation.
    The interaction is created with the placeholder as content; the
    placeholder has no ['|'], so that the text for the target is undefined
    and the pass ends in a [TypeError] before the two cooldown timestamps
    are written.  Sixteen milliseconds later the next pass creates a second
    interaction of the same ordered pair. *)
Theorem checkForInteractions_repeats_within_cooldown :
  let run := checkForInteractions lateEnv 0 (stage muteEngine origin eastBy80) in
  let again := checkForInteractions lateEnv 0 (fst run) in
  snd run = Throw (TypeError "targetText is undefined")
  /\ map encounter (interactions (fst run)) = [("alice", "bob", 1700000000005%Z)]
  /\ lastInteractionTimeOf (fst run) 0 = Some 0%Z
  /\ lastInteractionTimeOf (fst run) 1 = Some 0%Z
  /\ snd again = Throw (TypeError "targetText is undefined")
  /\ map encounter (interactions (fst again))
     = [("alice", "bob", 1700000000005%Z); ("alice", "bob", 1700000000021%Z)]
  /\ (1700000000021 - 1700000000005 < minInteractionInterval)%Z.
Proof.
  destruct (first_pass_outcome origin eastBy80 canInteract_at_80)
    as (H1 & H2 & H3 & H4).
  destruct (second_pass_outcome origin eastBy80 canInteract_at_80)
    as (H5 & H6 & _).
  cbv zeta. by repeat split.
Qed.



(** C7 refuted.  The clock advances between the two readings made for the
    new memory: [createdAt] and [latestAccess] differ. *)
Lemma observe_stamps_differ :
  let run := observe tickingEnv 0 "saw a fire" (village steadyEngine steadyEngine) in
  snd run = Return tt
  /\ exists b,
       streamOf (fst run) 0 = Some [Observation b]
       /\ BaseMemory.createdAt b = "2"
       /\ BaseMemory.latestAccess b = "3"
       /\ BaseMemory.createdAt b <> BaseMemory.latestAccess b.
Proof.
  cbv zeta. split; [by vm_compute|].
  eexists. split; [by vm_compute|]. by repeat split.
Qed.

Lemma observe_scoring_unavailable_witness :
  exists w',
    observe tickingEnv 1 "saw a fire" (village steadyEngine deafEngine)
    = (w', Throw ScoringUnavailable)
    /\ agents w' !! 1 = Some (bob deafEngine)
    /\ agents w' = agents (village steadyEngine deafEngine)
    /\ interactions w' = interactions (village steadyEngine deafEngine)
    /\ memories w' = memories (village steadyEngine deafEngine)
    /\ characters w' = characters (village steadyEngine deafEngine)
    /\ scene w' = scene (village steadyEngine deafEngine).
Proof.
  apply (observe_scoring_unavailable tickingEnv (village steadyEngine deafEngine) 1
           (bob deafEngine) "saw a fire").
  - reflexivity.
  - left. reflexivity.
Defined.

Lemma observe_appends_one_witness :
  let w := village steadyEngine steadyEngine in
  let w' := fst (observe stillEnv 0 "saw a fire" w) in
  exists a' b,
    agents w' = <[0 := a']> (agents w)
    /\ Agent.memoryStream a' = [] ++ [Observation b]
    /\ BaseMemory.id b = obsId (0 + 1)
    /\ BaseMemory.description b = "saw a fire"
    /\ BaseMemory.createdAt b = dateToString stillEnv (clock stillEnv (0 + 2))
    /\ BaseMemory.latestAccess b = dateToString stillEnv (clock stillEnv (0 + 3))
    /\ (clock stillEnv (0 + 2) = clock stillEnv (0 + 3) ->
        BaseMemory.createdAt b = BaseMemory.latestAccess b)
    /\ observation (Agent.memoryCount a') = 0 + 1
    /\ reflection (Agent.memoryCount a') = 0
    /\ plan (Agent.memoryCount a') = 0
    /\ conversation (Agent.memoryCount a') = 0
    /\ (forall other, other <> 0 -> agents w' !! other = agents w !! other).
Proof.
  cbv zeta.
  apply (observe_appends_one stillEnv (village steadyEngine steadyEngine)
           (fst (observe stillEnv 0 "saw a fire" (village steadyEngine steadyEngine)))
           0 (alice steadyEngine) "saw a fire").
  - reflexivity.
  - by vm_compute.
Defined.

Lemma observe_ids_increasing_witness :
  let w := village steadyEngine steadyEngine in
  let descriptions := ["saw a fire"; "heard a bell"; "smelled smoke"] in
  let w' := fst (observeAll tickingEnv 0 descriptions w) in
  exists a' news,
    agents w' !! 0 = Some a'
    /\ Agent.memoryStream a' = [] ++ news
    /\ map memoryId news = map obsId (seq 1 3)
    /\ observation (Agent.memoryCount a') = 0 + 3
    /\ StronglySorted id_lt (map memoryId news)
    /\ NoDup (map memoryId news)
    /\ (counted (alice steadyEngine) ->
        counted a'
        /\ StronglySorted id_lt (observationIds a')
        /\ NoDup (observationIds a')).
Proof.
  cbv zeta.
  apply (observe_ids_increasing tickingEnv
           ["saw a fire"; "heard a bell"; "smelled smoke"]
           (village steadyEngine steadyEngine) _ 0 (alice steadyEngine)).
  - reflexivity.
  - by vm_compute.
Defined.


Lemma getRecentInteractions_sorted_witness :
  (exists w' recent,
     getRecentInteractions (Some 2%Z) chronicle = (w', Return recent)
     /\ length recent <= 2
     /\ StronglySorted newerFirst recent
     /\ interactions w' ≡ₚ interactions chronicle
     /\ StronglySorted newerFirst (interactions w')
     /\ recent = take 2 (interactions w'))
  /\ (forall agentId,
        memories chronicle !! agentId = None ->
        getAgentMemories agentId chronicle = (chronicle, Return [])).
Proof.
  apply (getRecentInteractions_sorted (Some 2%Z) chronicle). simpl. lia.
Defined.

Example getRecentInteractions_chronicle :
  snd (getRecentInteractions (Some 2%Z) chronicle)
  = Return [meeting "b" 9; meeting "c" 7].
Proof. reflexivity. Qed.

Example getRecentInteractions_default :
  snd (getRecentInteractions None chronicle)
  = Return [meeting "b" 9; meeting "c" 7; meeting "a" 5].
Proof. reflexivity. Qed.

(** A negative limit counts from the end, as [slice] does. *)
Example getRecentInteractions_negative :
  snd (getRecentInteractions (Some (-1)%Z) chronicle)
  = Return [meeting "b" 9; meeting "c" 7].
Proof. reflexivity. Qed.

Example getAgentMemories_unknown :
  snd (getAgentMemories "carol" chronicle) = Return [].
Proof. reflexivity. Qed.


Lemma observation_is_local_witness :
  let w := village steadyEngine steadyEngine in
  exists w' r interaction,
    createInteraction tickingEnv 0 1 observation_ w = (w', r)
    /\ interactions w' = interactions w ++ [interaction]
    /\ Interaction.content interaction = "Alice observed Bob watering the roses"
    /\ (r = Return (Some interaction) \/ r = Throw ScoringUnavailable)
    /\ replies w' = replies w.
Proof.
  cbv zeta.
  apply (observation_is_local tickingEnv (village steadyEngine steadyEngine) 0 1
           (alice steadyEngine) (bob steadyEngine)).
  - reflexivity.
  - reflexivity.
Defined.


(** Of the two things Alice was told only the recent one enters the
    prompt. *)
Example rumor_prompt_chronicle :
  replies (fst (createInteraction lateEnv 0 1 rumor_ chronicle))
  = [Reply rumorMessage 0
       (rumorContext (alice steadyEngine) "The well is dry.")].
Proof. by vm_compute. Qed.


Example rumor_falls_back :
  Interaction.content <$> interactions (fst (createInteraction tickingEnv 0 1 rumor_
                                               (village muteEngine steadyEngine)))
  = ["Failed to generate rumor"].
Proof. by vm_compute. Qed.

Example conversation_returns_placeholder :
  (fun r => match r with
            | Return (Some i) => Some (Interaction.content i)
            | _ => None
            end)
    (snd (createInteraction tickingEnv 0 1 conversation_
            (village muteEngine steadyEngine)))
  = Some "Failed to generate conversation".
Proof. by vm_compute. Qed.

(** * What the operations keep *)

Section Grows.
Context (R : relation World) `{!PreOrder R}.

Lemma grows_ret {A} (a : A) : grows R (mret a).
Proof. intros w. reflexivity. Qed.

Lemma grows_throw {A} (e : Error) : grows R (@throw A e).
Proof. intros w. reflexivity. Qed.

Lemma grows_get : grows R get.
Proof. intros w. reflexivity. Qed.

Lemma grows_bind {A B} (m : M A) (k : A -> M B) :
  grows R m -> (forall a, grows R (k a)) -> grows R (m ≫= k).
Proof.
  intros Hm Hk w. unfold mbind, M_bind.
  specialize (Hm w). destruct (m w) as [w1 [a|e]]; simpl in *.
  - transitivity w1; [exact Hm|apply Hk].
  - exact Hm.
Qed.

Lemma grows_try_catch {A} (m : M A) (h : Error -> M A) :
  grows R m -> (forall e, grows R (h e)) -> grows R (try_catch m h).
Proof.
  intros Hm Hh w. unfold try_catch.
  specialize (Hm w). destruct (m w) as [w1 [a|e]]; simpl in *.
  - exact Hm.
  - transitivity w1; [exact Hm|apply Hh].
Qed.

Lemma grows_modify (f : World -> World) :
  (forall w, R w (f w)) -> grows R (modify f).
Proof. intros Hf w. apply Hf. Qed.

Lemma grows_getAgent r : grows R (getAgent r).
Proof. intros w. unfold getAgent. destruct (agents w !! r); reflexivity. Qed.

Lemma grows_getCharacter r : grows R (getCharacter r).
Proof. intros w. unfold getCharacter. destruct (characters w !! r); reflexivity. Qed.

Section Trace.
Context `{!Ignores set_trace R}.

Lemma grows_external c : grows R (external c).
Proof. intros w. apply (ignores (set := set_trace)). Qed.

Lemma grows_await {A} c (answer : nat -> option A) e : grows R (await c answer e).
Proof.
  unfold await. apply grows_bind; [apply grows_external|].
  intros moment. destruct (answer moment); [apply grows_ret|apply grows_throw].
Qed.

Lemma grows_dateNow env : grows R (dateNow env).
Proof.
  unfold dateNow. apply grows_bind; [apply grows_external|intros; apply grows_ret].
Qed.

Lemma grows_mathRandom env : grows R (mathRandom env).
Proof.
  unfold mathRandom. apply grows_bind; [apply grows_external|intros; apply grows_ret].
Qed.

End Trace.

Section Characters.
Context `{!Ignores set_characters R}.

Lemma grows_setCharacter r c : grows R (setCharacter r c).
Proof. apply grows_modify. intros w. apply (ignores (set := set_characters)). Qed.

Lemma grows_showSpeechBubble this content : grows R (showSpeechBubble this content).
Proof.
  unfold showSpeechBubble. apply grows_bind; [apply grows_getCharacter|].
  intros c. destruct (AgentCharacter.speechBubble c);
    [apply grows_setCharacter|apply grows_ret].
Qed.

Lemma grows_setLastInteractionTime this time :
  grows R (setLastInteractionTime this time).
Proof.
  unfold setLastInteractionTime. apply grows_bind; [apply grows_getCharacter|].
  intros c. apply grows_setCharacter.
Qed.

End Characters.

End Grows.

#[global] Instance same_preorder {X} (field : World -> X) : PreOrder (same field).
Proof.
  split.
  - intros w. reflexivity.
  - intros w1 w2 w3 H12 H23. unfold same in *. congruence.
Qed.

#[global] Instance same_agents_trace : Ignores set_trace (same agents).
Proof. by intros f w. Qed.
#[global] Instance same_agents_interactions : Ignores set_interactions (same agents).
Proof. by intros f w. Qed.
#[global] Instance same_agents_memories : Ignores set_memories (same agents).
Proof. by intros f w. Qed.
#[global] Instance same_agents_characters : Ignores set_characters (same agents).
Proof. by intros f w. Qed.

#[global] Instance same_interactions_trace : Ignores set_trace (same interactions).
Proof. by intros f w. Qed.
#[global] Instance same_interactions_agents : Ignores set_agents (same interactions).
Proof. by intros f w. Qed.
#[global] Instance same_interactions_memories : Ignores set_memories (same interactions).
Proof. by intros f w. Qed.
#[global] Instance same_interactions_characters :
  Ignores set_characters (same interactions).
Proof. by intros f w. Qed.

#[global] Instance same_memories_trace : Ignores set_trace (same memories).
Proof. by intros f w. Qed.
#[global] Instance same_memories_agents : Ignores set_agents (same memories).
Proof. by intros f w. Qed.
#[global] Instance same_memories_interactions : Ignores set_interactions (same memories).
Proof. by intros f w. Qed.
#[global] Instance same_memories_characters : Ignores set_characters (same memories).
Proof. by intros f w. Qed.

#[global] Instance same_characters_trace : Ignores set_trace (same characters).
Proof. by intros f w. Qed.
#[global] Instance same_characters_agents : Ignores set_agents (same characters).
Proof. by intros f w. Qed.
#[global] Instance same_characters_interactions :
  Ignores set_interactions (same characters).
Proof. by intros f w. Qed.
#[global] Instance same_characters_memories : Ignores set_memories (same characters).
Proof. by intros f w. Qed.

#[global] Instance same_scene_trace : Ignores set_trace (same scene).
Proof. by intros f w. Qed.
#[global] Instance same_scene_agents : Ignores set_agents (same scene).
Proof. by intros f w. Qed.
#[global] Instance same_scene_interactions : Ignores set_interactions (same scene).
Proof. by intros f w. Qed.
#[global] Instance same_scene_memories : Ignores set_memories (same scene).
Proof. by intros f w. Qed.
#[global] Instance same_scene_characters : Ignores set_characters (same scene).
Proof. by intros f w. Qed.

(** One step through a method: sequencing, branching, and the steps that
    only read, log or redraw. *)
Ltac frame_step :=
  match goal with
  | |- PreOrder _ => exact _
  | |- Ignores _ _ => exact _
  | |- forall _, grows _ _ => intros ?
  | |- grows _ (mret _) => apply grows_ret
  | |- grows _ (throw _) => apply grows_throw
  | |- grows _ get => apply grows_get
  | |- grows _ (getAgent _) => apply grows_getAgent
  | |- grows _ (getCharacter _) => apply grows_getCharacter
  | |- grows _ (external _) => apply grows_external
  | |- grows _ (await _ _ _) => apply grows_await
  | |- grows _ (dateNow _) => apply grows_dateNow
  | |- grows _ (mathRandom _) => apply grows_mathRandom
  | |- grows _ (setCharacter _ _) => apply grows_setCharacter
  | |- grows _ (showSpeechBubble _ _) => apply grows_showSpeechBubble
  | |- grows _ (setLastInteractionTime _ _) => apply grows_setLastInteractionTime
  | |- grows _ (mbind _ _) => apply grows_bind
  | |- grows _ (try_catch _ _) => apply grows_try_catch
  | |- grows _ (match ?x with _ => _ end) => destruct x
  | |- grows _ (modify (?set _)) =>
      apply grows_modify; [..|intros ?; apply (ignores (set := set))]
  | |- grows _ (let _ := _ in _) => cbv zeta
  end.

Ltac frame := repeat frame_step.

Section FrameOfTheService.
Context (R : relation World) `{!PreOrder R} `{!Ignores set_trace R}.
Variable env : Env.

Lemma grows_filterRecent knownFacts : grows R (filterRecent env knownFacts).
Proof.
  induction knownFacts as [|m rest IH]; simpl; frame. exact IH.
Qed.

Lemma grows_generateConversation initiator target :
  grows R (generateConversation initiator target).
Proof. unfold generateConversation. frame. Qed.

Lemma grows_generateRumor agent knownFacts :
  grows R (generateRumor env agent knownFacts).
Proof. unfold generateRumor. frame. apply grows_filterRecent. Qed.

Lemma grows_observe `{!Ignores set_agents R} this description :
  grows R (observe env this description).
Proof. unfold observe, setAgent. frame. Qed.

Lemma grows_recordMemory `{!Ignores set_memories R} agentId content type source :
  grows R (recordMemory env agentId content type source).
Proof. unfold recordMemory. frame. Qed.

End FrameOfTheService.

(** * More on the interaction service *)

Section ServiceMemories.
Variable env : Env.

(** X1.  [recordMemory] followed by [getAgentMemories]. *)
Theorem recordMemory_then_getAgentMemories w agentId content type source :
  exists w' m,
    recordMemory env agentId content type source w = (w', Return tt)
    /\ getAgentMemories agentId w' = (w', Return (knownTo w agentId ++ [m]))
    /\ ServiceMemory.agentId m = agentId
    /\ ServiceMemory.content m = content
    /\ ServiceMemory.type m = type
    /\ ServiceMemory.source m = source
    /\ ServiceMemory.timestamp m = clock env (length (trace w))
    /\ (forall other, other <> agentId ->
        getAgentMemories other w' = (w', Return (knownTo w other)))
    /\ agents w' = agents w
    /\ interactions w' = interactions w.
Proof.
  eexists _, (serviceMemoryAt env agentId content type source (length (trace w))).
  split.
  { unfold recordMemory, dateNow, external, modify, mbind, M_bind, mret, M_ret.
    simpl. reflexivity. }
  split.
  { unfold getAgentMemories, get, mbind, M_bind, mret, M_ret. simpl.
    by rewrite lookup_insert_eq. }
  repeat split.
  intros other Hother.
  unfold getAgentMemories, get, mbind, M_bind, mret, M_ret, knownTo. simpl.
  by rewrite lookup_insert_ne.
Qed.

Lemma recordPart_memories w i t type content :
  memories (fst (recordPart env i t type content w))
  = recordBoth env i t type content (length (trace w)) (memories w).
Proof.
  unfold recordPart, recordMemory, mathRandom, dateNow, external, modify,
    recordBoth, serviceMemoryAt, mbind, M_bind, mret, M_ret. simpl.
  rewrite !length_app. simpl.
  replace (length (trace w) + 1 + 1) with (length (trace w) + 2) by lia.
  replace (length (trace w) + 2 + 1) with (length (trace w) + 3) by lia.
  reflexivity.
Qed.

Lemma createInteraction_memories w initiator target i t type :
  agents w !! initiator = Some i ->
  agents w !! target = Some t ->
  exists calls content,
    generateContent env initiator target i t type w = (log calls w, Return content)
    /\ interactions (fst (createInteraction env initiator target type w))
       = interactions w
         ++ [interactionAt env i t type content (length (trace w) + length calls)]
    /\ memories (fst (createInteraction env initiator target type w))
       = recordBoth env i t type content (length (trace w) + length calls) (memories w).
Proof.
  intros Hi Ht.
  destruct (createInteraction_outcome env w initiator target i t type Hi Ht)
    as (calls & content & w' & r & Hgen & Hrun & Hrecord & _).
  exists calls, content. split; [exact Hgen|].
  split; [by rewrite Hrun|].
  rewrite (createInteraction_sections env w initiator target i t type Hi Ht).
  unfold mbind at 1, M_bind at 1. rewrite Hgen.
  unfold mbind at 1, M_bind at 1.
  pose proof (recordPart_memories (log calls w) i t type content) as Hmemories.
  destruct (recordPart env i t type content (log calls w)) as [w2 [interaction|e]].
  - assert (Hrest : grows (same memories)
                      (observe env initiator content;;
                       observe env target content;;
                       mret (Some interaction))).
    { frame; apply grows_observe; exact _. }
    rewrite (Hrest w2). simpl in Hmemories. rewrite Hmemories.
    unfold log. simpl. by rewrite length_app.
  - simpl in *. rewrite Hmemories. unfold log. simpl. by rewrite length_app.
Qed.

(** X2.  Whatever becomes of its two [observe] calls, [createInteraction]
    records the content in the service for both sides. *)
Theorem createInteraction_records_both_sides w initiator target i t type :
  agents w !! initiator = Some i ->
  agents w !! target = Some t ->
  let w' := fst (createInteraction env initiator target type w) in
  exists interaction mi mt,
    interactions w' = interactions w ++ [interaction]
    /\ ServiceMemory.content mi = Interaction.content interaction
    /\ ServiceMemory.content mt = Interaction.content interaction
    /\ ServiceMemory.type mi = direct
    /\ ServiceMemory.type mt = match type with rumor_ => rumor | _ => direct end
    /\ ServiceMemory.source mi = Agent.id t
    /\ ServiceMemory.source mt = Agent.id i
    /\ (Agent.id i <> Agent.id t ->
        knownTo w' (Agent.id i) = knownTo w (Agent.id i) ++ [mi]
        /\ knownTo w' (Agent.id t) = knownTo w (Agent.id t) ++ [mt])
    /\ (Agent.id i = Agent.id t ->
        knownTo w' (Agent.id i) = knownTo w (Agent.id i) ++ [mi; mt])
    /\ (forall other, other <> Agent.id i -> other <> Agent.id t ->
        knownTo w' other = knownTo w other).
Proof.
  intros Hi Ht w'.
  destruct (createInteraction_memories w initiator target i t type Hi Ht)
    as (calls & content & _ & Hinteractions & Hmemories).
  fold w' in Hinteractions, Hmemories.
  set (moment := length (trace w) + length calls) in *.
  exists (interactionAt env i t type content moment),
    (serviceMemoryAt env (Agent.id i) content direct (Agent.id t) (moment + 2)),
    (serviceMemoryAt env (Agent.id t) content
       (match type with rumor_ => rumor | _ => direct end) (Agent.id i) (moment + 3)).
  split; [exact Hinteractions|].
  do 6 (split; [reflexivity|]).
  unfold knownTo. rewrite Hmemories. unfold recordBoth. simpl.
  split; [|split].
  - intros Hne. rewrite lookup_insert_ne, lookup_insert_eq by congruence.
    rewrite lookup_insert_eq, lookup_insert_ne by congruence. by split.
  - intros Heq. rewrite <- Heq. rewrite !lookup_insert_eq. simpl.
    by rewrite <- app_assoc.
  - intros other Hi' Ht'. by rewrite !lookup_insert_ne by congruence.
Qed.

(** X3.  A successful [observe] stores what the engine answered. *)
Theorem observe_stores_the_answers w w' this a description :
  agents w !! this = Some a ->
  observe env this description w = (w', Return tt) ->
  exists a' b,
    agents w' !! this = Some a'
    /\ last (Agent.memoryStream a') = Some (Observation b)
    /\ getImportanceScore (Agent.engine a) (length (trace w)) description
       = Some (BaseMemory.importance b)
    /\ getEmbedding (Agent.engine a) (S (length (trace w))) description
       = Some (BaseMemory.embedding b)
    /\ trace w' = trace w ++ [GetImportanceScore description; GetEmbedding description;
                              DateNow; DateNow]
    /\ interactions w' = interactions w
    /\ memories w' = memories w
    /\ characters w' = characters w
    /\ scene w' = scene w.
Proof.
  intros Ha Hrun.
  destruct (observe_returns_inv env w w' this a description Ha Hrun)
    as (importance & embedding & Hi & He & ->).
  eexists _, _. simpl. split; [apply lookup_insert_eq|].
  split; [apply last_snoc|]. by repeat split.
Qed.

End ServiceMemories.

Section Sorting.

Lemma insertByTimestamp_front i l :
  Forall (fun j => (Interaction.timestamp j <= Interaction.timestamp i)%Z) l ->
  insertByTimestamp i l = i :: l.
Proof.
  destruct 1 as [|j l Hj _]; simpl; [reflexivity|].
  apply Z.leb_le in Hj. by rewrite Hj.
Qed.

Lemma sortByTimestamp_sorted_id l :
  StronglySorted newerFirst l -> sortByTimestamp l = l.
Proof.
  induction 1 as [|i l _ IH Hi]; simpl; [reflexivity|].
  rewrite IH. by apply insertByTimestamp_front.
Qed.

Lemma stampedAt_insert timestamp i l :
  stampedAt timestamp (insertByTimestamp i l) = stampedAt timestamp (i :: l).
Proof.
  induction l as [|j l IH]; simpl; [reflexivity|].
  destruct (Z.leb_spec (Interaction.timestamp j) (Interaction.timestamp i))
    as [Hle|Hlt]; [reflexivity|].
  unfold stampedAt in *. simpl in *. rewrite IH.
  destruct (Z.eqb_spec (Interaction.timestamp i) timestamp) as [Hi|Hi];
    destruct (Z.eqb_spec (Interaction.timestamp j) timestamp) as [Hj|Hj];
    try reflexivity.
  lia.
Qed.

Lemma stampedAt_sort timestamp l :
  stampedAt timestamp (sortByTimestamp l) = stampedAt timestamp l.
Proof.
  induction l as [|i l IH]; simpl; [reflexivity|].
  rewrite stampedAt_insert. unfold stampedAt in *. simpl. by rewrite IH.
Qed.

Lemma slice0_prefix {A} (limit : Z) (xs : list A) :
  exists n, slice0 limit xs = take n xs.
Proof. unfold slice0. by eexists. Qed.

(** X4.  [getRecentInteractions] sorts the stored interactions in place:
    none is lost or added, and a second call with the same limit returns
    the same list and changes nothing. *)
Theorem getRecentInteractions_idempotent limit w :
  exists w' recent,
    getRecentInteractions limit w = (w', Return recent)
    /\ interactions w' ≡ₚ interactions w
    /\ agents w' = agents w
    /\ memories w' = memories w
    /\ getRecentInteractions limit w' = (w', Return recent).
Proof.
  eexists _, _. split; [reflexivity|]. simpl.
  split; [apply sortByTimestamp_Permutation|]. do 2 (split; [reflexivity|]).
  unfold getRecentInteractions, modify, get, set_interactions,
    mbind, M_bind, mret, M_ret.
  simpl. by rewrite sortByTimestamp_sorted_id by apply sortByTimestamp_sorted.
Qed.

(** X5.  What [getRecentInteractions] returns is a front part of the
    stored interactions as it leaves them, and nothing it leaves out is
    more recent than anything it returns. *)
Theorem getRecentInteractions_most_recent limit w :
  exists w' recent rest,
    getRecentInteractions limit w = (w', Return recent)
    /\ interactions w' = recent ++ rest
    /\ forall i j, i ∈ recent -> j ∈ rest ->
         (Interaction.timestamp j <= Interaction.timestamp i)%Z.
Proof.
  destruct (slice0_prefix (default 10%Z limit) (sortByTimestamp (interactions w)))
    as (n & Hn).
  exists (set_interactions sortByTimestamp w),
    (take n (sortByTimestamp (interactions w))),
    (drop n (sortByTimestamp (interactions w))).
  split; [|split].
  - unfold getRecentInteractions, modify, get, mbind, M_bind, mret, M_ret.
    simpl. by rewrite Hn.
  - simpl. by rewrite take_drop.
  - intros i j Hi Hj.
    pose proof (sortByTimestamp_sorted (interactions w)) as Hsorted.
    rewrite <- (take_drop n (sortByTimestamp (interactions w))) in Hsorted.
    by apply (StronglySorted_app_1_elem_of _ _ _ i j) in Hsorted.
Qed.

(** X6.  The sort is stable: interactions of one timestamp stay in the
    order in which they were recorded. *)
Theorem getRecentInteractions_stable limit w timestamp :
  stampedAt timestamp (interactions (fst (getRecentInteractions limit w)))
  = stampedAt timestamp (interactions w).
Proof. simpl. apply stampedAt_sort. Qed.

(** X7.  A negative limit [- k] does not limit the count: the stored
    interactions are sorted, most recent first, and all of them are
    returned but the last [k], which are the [k] oldest (none is returned
    when there are at most [k]). *)
Theorem getRecentInteractions_negative_limit (limit : Z) w :
  (limit < 0)%Z ->
  exists w' recent oldest,
    getRecentInteractions (Some limit) w = (w', Return recent)
    /\ interactions w' = recent ++ oldest
    /\ interactions w' ≡ₚ interactions w
    /\ StronglySorted newerFirst (interactions w')
    /\ length oldest = Nat.min (Z.to_nat (- limit)) (length (interactions w))
    /\ length recent = length (interactions w) - Z.to_nat (- limit).
Proof.
  intros Hlimit.
  assert (Hlen : length (sortByTimestamp (interactions w)) = length (interactions w)).
  { by rewrite sortByTimestamp_Permutation. }
  exists (set_interactions sortByTimestamp w),
    (take (length (interactions w) - Z.to_nat (- limit))
       (sortByTimestamp (interactions w))),
    (drop (length (interactions w) - Z.to_nat (- limit))
       (sortByTimestamp (interactions w))).
  split.
  { unfold getRecentInteractions, modify, get, mbind, M_bind, mret, M_ret. simpl.
    unfold slice0. rewrite Hlen.
    destruct (Z.ltb_spec limit 0) as [_|?]; [|lia].
    by replace (Z.to_nat (Z.max (Z.of_nat (length (interactions w)) + limit) 0))
      with (length (interactions w) - Z.to_nat (- limit)) by lia. }
  simpl.
  split; [by rewrite take_drop|].
  split; [apply sortByTimestamp_Permutation|].
  split; [apply sortByTimestamp_sorted|].
  split; [rewrite length_drop, Hlen; lia|rewrite length_take, Hlen; lia].
Qed.

End Sorting.

Section Range.

(** X8.  Being in range does not depend on who asks; and a character is in
    range of its own position exactly when its two coordinates are finite
    (neither [NaN] nor an infinity). *)
Theorem canInteract_symmetric a b :
  canInteract a b = canInteract b a
  /\ (canInteract a a = true
      <-> Double.isFinite (x a) = true /\ Double.isFinite (y a) = true).
Proof.
  split; [apply canInteract_swap|].
  rewrite canInteract_self. apply andb_true_iff.
Qed.

End Range.

(** * What every history keeps *)

Section Operations.
Context (R : relation World) `{!PreOrder R}
  `{!Ignores set_trace R} `{!Ignores set_characters R}.
Variable env : Env.
Variable allowed : InteractionType -> Prop.
Hypothesis Hobserve : forall this description, grows R (observe env this description).
Hypothesis Hrecord : forall agentId content type source,
  grows R (recordMemory env agentId content type source).
Hypothesis Happend : forall i w,
  allowed (Interaction.type i) -> R w (set_interactions (fun l => l ++ [i]) w).

Lemma grows_createInteraction initiator target type :
  allowed type -> grows R (createInteraction env initiator target type).
Proof.
  intros Hallowed. unfold createInteraction. frame;
    try apply grows_generateConversation;
    try apply grows_generateRumor;
    try apply Hobserve; try apply Hrecord; try exact _.
  all: apply grows_modify; [..|intros w; by apply Happend]; exact _.
Qed.

Hypothesis Hconversation : allowed conversation_.
Hypothesis Hrumor : allowed rumor_.

Lemma grows_approach this otherCharacter me other :
  grows R (approach env this otherCharacter me other).
Proof.
  unfold approach. frame.
  all: apply grows_createInteraction; destruct (Qlt_le_dec _ _); assumption.
Qed.

Lemma grows_interactWith this otherCharacter :
  grows R (interactWith env this otherCharacter).
Proof. unfold interactWith. frame. apply grows_approach. Qed.

Lemma grows_forEach others (body : ref -> M unit) :
  (forall other, grows R (body other)) -> grows R (forEach others body).
Proof.
  intros Hbody. induction others as [|other rest IH]; simpl; frame.
  - apply Hbody.
  - exact IH.
Qed.

Lemma grows_checkForInteractions this : grows R (checkForInteractions env this).
Proof.
  unfold checkForInteractions. frame.
  apply grows_forEach. apply grows_interactWith.
Qed.

End Operations.

Section Histories.
Context (R : relation World) `{!PreOrder R}
  `{!Ignores set_trace R} `{!Ignores set_characters R}.
Variable env : Env.
Hypothesis Hobserve : forall this description, grows R (observe env this description).
Hypothesis Hrecord : forall agentId content type source,
  grows R (recordMemory env agentId content type source).
Hypothesis Happend : forall i w, R w (set_interactions (fun l => l ++ [i]) w).
Hypothesis Hsort : forall w, R w (set_interactions sortByTimestamp w).

Lemma perform_grows op w : R w (perform env op w).
Proof.
  destruct op as [this description|initiator target type|agentId content type source
                 |agentId|limit|this]; simpl.
  - apply Hobserve.
  - apply (grows_createInteraction R env (fun _ => True)); auto.
  - apply Hrecord.
  - reflexivity.
  - apply Hsort.
  - apply (grows_checkForInteractions R env (fun _ => True)); auto.
Qed.

Lemma performAll_grows ops : forall w, R w (performAll env ops w).
Proof.
  induction ops as [|op ops IH]; intros w; simpl; [reflexivity|].
  transitivity (perform env op w); [apply perform_grows|apply IH].
Qed.

End Histories.

Section Counted.
Variable env : Env.

#[local] Instance keepsCounted_preorder : PreOrder keepsCounted.
Proof. split; unfold keepsCounted; [intros w|intros w1 w2 w3]; auto. Qed.

#[local] Instance keepsCounted_trace : Ignores set_trace keepsCounted.
Proof. intros f w Hcounted. exact Hcounted. Qed.
#[local] Instance keepsCounted_characters : Ignores set_characters keepsCounted.
Proof. intros f w Hcounted. exact Hcounted. Qed.
#[local] Instance keepsCounted_interactions : Ignores set_interactions keepsCounted.
Proof. intros f w Hcounted. exact Hcounted. Qed.
#[local] Instance keepsCounted_memories : Ignores set_memories keepsCounted.
Proof. intros f w Hcounted. exact Hcounted. Qed.

Lemma keepsCounted_observe this description :
  grows keepsCounted (observe env this description).
Proof.
  intros w Hcounted k a.
  destruct (observe env this description w) as [w' r] eqn:Hrun.
  by apply (observe_keeps_counted env w w' r this description).
Qed.

Lemma keepsCounted_performAll ops w : keepsCounted w (performAll env ops w).
Proof.
  apply performAll_grows; try exact _.
  - apply keepsCounted_observe.
  - intros. apply grows_recordMemory; exact _.
  - intros i w0. apply (ignores (set := set_interactions)).
  - intros w0. apply (ignores (set := set_interactions)).
Qed.

(** X9.  When the counters account for the streams to begin with (as they
    do for new agents), they do so after every history of operations; the
    identifiers of the observations of every stream are then strictly
    increasing and no identifier occurs twice. *)
Theorem identifiers_never_reused ops w k a :
  allCounted w ->
  agents (performAll env ops w) !! k = Some a ->
  counted a
  /\ StronglySorted id_lt (observationIds a)
  /\ NoDup (observationIds a).
Proof.
  intros Hcounted Ha.
  assert (Hc : counted a) by by eapply (keepsCounted_performAll ops w).
  split; [exact Hc|]. rewrite Hc.
  split; [apply obsIds_increasing|apply obsIds_NoDup].
Qed.

End Counted.

Section AppendOnly.
Variable env : Env.

Lemma appendOnly_same w w' :
  agents w' = agents w ->
  interactions w' = interactions w ->
  memories w' = memories w ->
  appendOnly w w'.
Proof.
  intros Hagents Hinteractions Hmemories. unfold appendOnly, knownTo.
  rewrite Hagents, Hinteractions, Hmemories.
  split; [|split; [reflexivity|intros; reflexivity]].
  intros k a Ha. exists a. by repeat split.
Qed.

#[local] Instance appendOnly_preorder : PreOrder appendOnly.
Proof.
  split.
  - intros w. by apply appendOnly_same.
  - intros w1 w2 w3 (Ha12 & Hi12 & Hm12) (Ha23 & Hi23 & Hm23).
    split; [|split].
    + intros k a1 H1.
      destruct (Ha12 k a1 H1) as (a2 & H2 & Hs12 & Hc12 & Hid12 & Hn12 & He12).
      destruct (Ha23 k a2 H2) as (a3 & H3 & Hs23 & Hc23 & Hid23 & Hn23 & He23).
      exists a3. split; [exact H3|].
      split; [by transitivity (Agent.memoryStream a2)|].
      split; [lia|]. repeat split; congruence.
    + by transitivity (interactions w2).
    + intros agentId. by transitivity (knownTo w2 agentId).
Qed.

#[local] Instance appendOnly_trace : Ignores set_trace appendOnly.
Proof. intros f w. by apply appendOnly_same. Qed.
#[local] Instance appendOnly_characters : Ignores set_characters appendOnly.
Proof. intros f w. by apply appendOnly_same. Qed.

Lemma appendOnly_observe this description :
  grows appendOnly (observe env this description).
Proof.
  intros w. destruct (agents w !! this) as [a|] eqn:Ha.
  - destruct (observe_outcome env w this a description Ha)
      as (calls & _ & [[-> _]|(importance & embedding & ->)]).
    + by apply appendOnly_same.
    + simpl. split; [|split; [reflexivity|intros; reflexivity]].
      intros k a0 Hk. simpl.
      destruct (decide (this = k)) as [<-|Hne].
      * rewrite lookup_insert_eq. eexists. split; [reflexivity|].
        rewrite Ha in Hk. injection Hk as <-. simpl.
        split; [by apply prefix_app_r|]. split; [lia|]. by repeat split.
      * rewrite lookup_insert_ne by assumption. exists a0. by repeat split.
  - unfold observe, getAgent, mbind, M_bind. rewrite Ha. simpl.
    by apply appendOnly_same.
Qed.

Lemma appendOnly_recordMemory agentId content type source :
  grows appendOnly (recordMemory env agentId content type source).
Proof.
  intros w. simpl. split; [|split; [reflexivity|]].
  - intros k a Ha. exists a. by repeat split.
  - intros other. unfold knownTo. simpl.
    destruct (decide (agentId = other)) as [<-|Hne].
    + rewrite lookup_insert_eq. simpl. by apply prefix_app_r.
    + by rewrite lookup_insert_ne.
Qed.

Lemma appendOnly_performAll ops w : appendOnly w (performAll env ops w).
Proof.
  apply performAll_grows; try exact _.
  - apply appendOnly_observe.
  - apply appendOnly_recordMemory.
  - intros i w0. split; [|split; [|intros; reflexivity]].
    + intros k a Ha. exists a. by repeat split.
    + simpl. by apply submseteq_inserts_r.
  - intros w0. split; [|split; [|intros; reflexivity]].
    + intros k a Ha. exists a. by repeat split.
    + simpl. apply Permutation_submseteq. symmetry.
      apply sortByTimestamp_Permutation.
Qed.

(** X10.  Nothing is ever taken back.  After every history of operations,
    each agent is still in place with its identity and its engine, its
    memory stream is the old one with memories added at the end, and its
    counter of observations has not gone down; every interaction on record
    is still on record; and what the service had recorded for an agent is
    still there, with more at the end. *)
Theorem histories_only_append ops w :
  let w' := performAll env ops w in
  (forall k a, agents w !! k = Some a ->
     exists a',
       agents w' !! k = Some a'
       /\ Agent.memoryStream a `prefix_of` Agent.memoryStream a'
       /\ observation (Agent.memoryCount a) <= observation (Agent.memoryCount a')
       /\ Agent.id a' = Agent.id a
       /\ Agent.name a' = Agent.name a
       /\ Agent.engine a' = Agent.engine a)
  /\ interactions w ⊆+ interactions w'
  /\ (forall agentId, knownTo w agentId `prefix_of` knownTo w' agentId).
Proof. apply appendOnly_performAll. Qed.

End AppendOnly.

Section OnlyTalk.
Variable env : Env.

#[local] Instance onlyTalk_preorder : PreOrder onlyTalk.
Proof.
  split.
  - intros w. exists []. by rewrite app_nil_r.
  - intros w1 w2 w3 (news12 & H12 & Hk12) (news23 & H23 & Hk23).
    exists (news12 ++ news23). split; [by rewrite H23, H12, app_assoc|].
    by apply Forall_app.
Qed.

Lemma onlyTalk_same w w' : interactions w' = interactions w -> onlyTalk w w'.
Proof. intros H. exists []. by rewrite app_nil_r. Qed.

#[local] Instance onlyTalk_trace : Ignores set_trace onlyTalk.
Proof. intros f w. by apply onlyTalk_same. Qed.
#[local] Instance onlyTalk_characters : Ignores set_characters onlyTalk.
Proof. intros f w. by apply onlyTalk_same. Qed.
#[local] Instance onlyTalk_agents : Ignores set_agents onlyTalk.
Proof. intros f w. by apply onlyTalk_same. Qed.
#[local] Instance onlyTalk_memories : Ignores set_memories onlyTalk.
Proof. intros f w. by apply onlyTalk_same. Qed.

(** X11.  A pass of a character never removes or reorders an interaction;
    the interactions it adds are conversations and rumors, never
    observations. *)
Theorem checkForInteractions_only_talks this w :
  exists news,
    interactions (fst (checkForInteractions env this w)) = interactions w ++ news
    /\ Forall (fun i => Interaction.type i = conversation_
                        \/ Interaction.type i = rumor_) news.
Proof.
  assert (Hgrows : grows onlyTalk (checkForInteractions env this)).
  { apply (grows_checkForInteractions onlyTalk env (fun type => type <> observation_));
      try exact _; try done.
    - intros. apply grows_observe; exact _.
    - intros. apply grows_recordMemory; exact _.
    - intros i w0 Hi. exists [i]. split; [reflexivity|]. by constructor. }
  destruct (Hgrows w) as (news & Hnews & Hkinds).
  exists news. split; [exact Hnews|].
  eapply Forall_impl; [exact Hkinds|].
  intros i Hi. simpl in Hi. destruct (Interaction.type i); auto. done.
Qed.

End OnlyTalk.

(** * More on [AgentCharacter] *)

Section Pieces.

Lemma split_nonempty sep s : split sep s <> [].
Proof.
  destruct s as [|c s]; simpl; [done|].
  destruct (decide (c = sep)); [done|]. by destruct (split sep s).
Qed.

Lemma split_without sep s : occurs sep s = false -> split sep s = [s].
Proof.
  induction s as [|c s IH]; simpl; [done|].
  destruct (decide (c = sep)); [done|]. intros H. by rewrite (IH H).
Qed.

Lemma split_with sep s :
  occurs sep s = true -> exists p0 p1 rest, split sep s = p0 :: p1 :: rest.
Proof.
  induction s as [|c s IH]; simpl; [done|].
  destruct (decide (c = sep)).
  - intros _. pose proof (split_nonempty sep s).
    destruct (split sep s) as [|p1 rest] eqn:Hs; [done|]. by eexists _, _, _.
  - intros H. destruct (IH H) as (p0 & p1 & rest & ->). by eexists _, _, _.
Qed.

Lemma split_length sep s : length (split sep s) = S (occurrences sep s).
Proof.
  induction s as [|c s IH]; simpl; [done|].
  destruct (decide (c = sep)); simpl; [by rewrite IH|].
  pose proof (split_nonempty sep s).
  destruct (split sep s) as [|p rest] eqn:Hs; [done|]. simpl in *. lia.
Qed.

Lemma join_split sep s : join (String sep "") (split sep s) = s.
Proof.
  induction s as [|c s IH]; simpl; [done|].
  pose proof (split_nonempty sep s).
  destruct (decide (c = sep)) as [->|Hne].
  - unfold join in *. simpl. destruct (split sep s) as [|p rest]; [done|].
    simpl in *. by rewrite IH.
  - unfold join in *. destruct (split sep s) as [|p rest]; [done|].
    simpl in *. destruct rest; simpl in *; by rewrite <- IH.
Qed.

(** X12.  The pieces of [content.split('|')]: joined by ['|'] again they
    give back the content; there is one piece more than there are ['|'];
    so the first piece, the text of the initiator, is always there, and
    the second, the text of the target, is missing exactly when the
    content has no ['|']. *)
Theorem split_pieces content :
  join "|" (split "|" content) = content
  /\ length (split "|" content) = S (occurrences "|" content)
  /\ is_Some (split "|" content !! 0)
  /\ (split "|" content !! 1 = None <-> occurs "|" content = false).
Proof.
  split; [apply join_split|]. split; [apply split_length|].
  split.
  - pose proof (split_nonempty "|" content).
    destruct (split "|" content); [done|]. by eexists.
  - split.
    + intros Hnone. destruct (occurs "|" content) eqn:Hoccurs; [|done].
      destruct (split_with "|" content Hoccurs) as (p0 & p1 & rest & Hsplit).
      by rewrite Hsplit in Hnone.
    + intros Hoccurs. by rewrite (split_without _ _ Hoccurs).
Qed.

Lemma dropWhile_split {A} (f : A -> bool) xs :
  exists front,
    xs = front ++ dropWhile f xs
    /\ Forall (fun x => f x = true) front
    /\ (forall x, head (dropWhile f xs) = Some x -> f x = false).
Proof.
  induction xs as [|x xs (front & Hxs & Hfront & Hhead)]; simpl.
  - exists []. by repeat split.
  - destruct (f x) eqn:Hx.
    + exists (x :: front). split; [by rewrite Hxs at 1|]. split; [by constructor|done].
    + exists []. split; [done|]. split; [constructor|]. by intros ? [= <-].
Qed.

(** [trim] takes white space from the two ends, and all of it. *)
Lemma trim_spec s : trimmedTo s (trim s).
Proof.
  unfold trim, trimEnd, trimStart.
  destruct (dropWhile_split isWhiteSpace (codePoints s)) as (before & Hs & Hbefore & Hhead).
  set (rest := dropWhile isWhiteSpace (codePoints s)) in *.
  destruct (dropWhile_split isWhiteSpace (reverse rest)) as (back & Hrest & Hback & Hlast).
  set (middle := dropWhile isWhiteSpace (reverse rest)) in *.
  assert (Hrest' : rest = reverse middle ++ reverse back).
  { by rewrite <- reverse_app, <- Hrest, reverse_involutive. }
  exists before, (reverse middle), (reverse back).
  split; [by rewrite <- Hrest'|]. split; [exact Hbefore|].
  split; [by apply Forall_reverse|].
  split; [|split; [|reflexivity]].
  - intros point Hpoint. apply Hhead. rewrite Hrest'.
    destruct (reverse middle); [done|]. exact Hpoint.
  - intros point Hpoint. apply Hlast. by rewrite last_reverse in Hpoint.
Qed.

End Pieces.

Section Steps.

Lemma bind_returns {A B} (m : M A) (k : A -> M B) w w1 a :
  m w = (w1, Return a) -> (m ≫= k) w = k a w1.
Proof. intros H. unfold mbind, M_bind. by rewrite H. Qed.

Lemma bind_throws {A B} (m : M A) (k : A -> M B) w w1 e :
  m w = (w1, Throw e) -> (m ≫= k) w = (w1, Throw e).
Proof. intros H. unfold mbind, M_bind. by rewrite H. Qed.

Lemma mathRandom_eval env w :
  mathRandom env w = (log [MathRandom] w, Return (random env (length (trace w)))).
Proof. reflexivity. Qed.

Lemma dateNow_eval env w :
  dateNow env w = (log [DateNow] w, Return (clock env (length (trace w)))).
Proof. reflexivity. Qed.

Lemma set_characters_id w this c :
  characters w !! this = Some c -> set_characters <[this := c]> w = w.
Proof.
  intros Hc. destruct w. unfold set_characters. simpl in *. f_equal.
  by apply insert_id.
Qed.

Lemma showSpeechBubble_eval w this c content :
  characters w !! this = Some c ->
  showSpeechBubble this content w
  = (set_characters <[this := shown content c]> w, Return tt).
Proof.
  intros Hc. unfold showSpeechBubble, getCharacter, shown, mbind, M_bind.
  rewrite Hc. destruct (AgentCharacter.speechBubble c); [reflexivity|].
  by rewrite set_characters_id.
Qed.

Lemma setLastInteractionTime_eval w this c time :
  characters w !! this = Some c ->
  setLastInteractionTime this time w
  = (set_characters <[this := stamped time c]> w, Return tt).
Proof.
  intros Hc. unfold setLastInteractionTime, getCharacter, mbind, M_bind.
  by rewrite Hc.
Qed.

End Steps.

Section Approach.
Variable env : Env.
Variables (w w1 : World) (this otherCharacter : ref) (me other : AgentCharacter.t).
Variable interaction : Interaction.t.
Hypothesis Hme : characters w !! this = Some me.
Hypothesis Hother : characters w !! otherCharacter = Some other.
Hypothesis Hdistinct : otherCharacter <> this.
Hypothesis Hdraw : (random env (length (trace w)) < double_0_3)%Q.
Hypothesis Hcreate :
  createInteraction env (AgentCharacter.agent me) (AgentCharacter.agent other)
    (kindDrawn (random env (S (length (trace w)))))
    (log [MathRandom; MathRandom] w)
  = (w1, Return (Some interaction)).

Lemma created_characters : characters w1 = characters w.
Proof.
  pose proof (createInteraction_characters env (AgentCharacter.agent me)
                (AgentCharacter.agent other)
                (kindDrawn (random env (S (length (trace w)))))
                (log [MathRandom; MathRandom] w)) as H.
  by rewrite Hcreate in H.
Qed.

(** The approach up to the interaction. *)
Lemma approach_created :
  approach env this otherCharacter me other w
  = (let pieces := split "|" (Interaction.content interaction) in
     initiatorText ←
       match pieces !! 0 with
       | Some piece => mret (trim piece)
       | None => throw (TypeError "initiatorText is undefined")
       end;
     showSpeechBubble this initiatorText;;
     targetText ←
       match pieces !! 1 with
       | Some piece => mret (trim piece)
       | None => throw (TypeError "targetText is undefined")
       end;
     showSpeechBubble otherCharacter targetText;;
     now ← dateNow env;
     setLastInteractionTime this now;;
     now' ← dateNow env;
     setLastInteractionTime otherCharacter now') w1.
Proof.
  unfold approach.
  rewrite (bind_returns _ _ _ _ _ (mathRandom_eval env w)).
  destruct (Qlt_le_dec _ _) as [_|Hge]; [|by apply Qle_not_lt in Hge].
  rewrite (bind_returns _ _ _ _ _ (mathRandom_eval env (log [MathRandom] w))).
  rewrite log_log. simpl app.
  replace (length (trace (log [MathRandom] w))) with (S (length (trace w)))
    by (unfold log; simpl; rewrite length_app; simpl; lia).
  fold (kindDrawn (random env (S (length (trace w))))).
  by rewrite (bind_returns _ _ _ _ _ Hcreate).
Qed.

Lemma approach_completes p0 p1 rest :
  split "|" (Interaction.content interaction) = p0 :: p1 :: rest ->
  exists w',
    approach env this otherCharacter me other w = (w', Return tt)
    /\ characters w' !! this
       = Some (stamped (clock env (length (trace w1))) (shown (trim p0) me))
    /\ characters w' !! otherCharacter
       = Some (stamped (clock env (S (length (trace w1)))) (shown (trim p1) other))
    /\ (forall c, c <> this -> c <> otherCharacter ->
        characters w' !! c = characters w !! c)
    /\ agents w' = agents w1
    /\ interactions w' = interactions w1
    /\ memories w' = memories w1
    /\ trace w' = trace w1 ++ [DateNow; DateNow].
Proof.
  intros Hsplit. rewrite approach_created, Hsplit. cbv zeta. simpl lookup.
  pose proof created_characters as Hcharacters.
  rewrite (bind_returns _ _ w1 w1 (trim p0)) by reflexivity.
  erewrite bind_returns;
    [|apply (showSpeechBubble_eval _ _ me); by rewrite Hcharacters].
  erewrite bind_returns by reflexivity.
  erewrite bind_returns;
    [|apply (showSpeechBubble_eval _ _ other); simpl;
      by rewrite lookup_insert_ne, Hcharacters].
  erewrite bind_returns by apply dateNow_eval.
  erewrite bind_returns;
    [|apply (setLastInteractionTime_eval _ _ (shown (trim p0) me)); simpl;
      by rewrite lookup_insert_ne, lookup_insert_eq].
  erewrite bind_returns by apply dateNow_eval.
  erewrite setLastInteractionTime_eval;
    [|simpl; by rewrite lookup_insert_ne, lookup_insert_eq].
  eexists. split; [reflexivity|]. simpl.
  rewrite lookup_insert_ne, lookup_insert_eq by done.
  rewrite lookup_insert_eq.
  split; [reflexivity|]. split.
  { do 2 f_equal. rewrite length_app. simpl. f_equal. lia. }
  split.
  { intros c Hc Hc'. rewrite !lookup_insert_ne by done. by rewrite Hcharacters. }
  do 3 (split; [reflexivity|]). by rewrite <- app_assoc.
Qed.

(** X13.  When the content of the interaction has a ['|'], the approach
    completes: the two speech bubbles (where there are any) show the first
    and the second piece without the white space at their ends, and the
    two characters are stamped with two successive readings of the clock;
    no other character changes, and the agents, the interactions and the
    memories of the service are as [createInteraction] left them. *)
Theorem approach_with_separator p0 p1 rest :
  split "|" (Interaction.content interaction) = p0 :: p1 :: rest ->
  exists w',
    approach env this otherCharacter me other w = (w', Return tt)
    /\ characters w' !! this
       = Some (stamped (clock env (length (trace w1))) (shown (trim p0) me))
    /\ characters w' !! otherCharacter
       = Some (stamped (clock env (S (length (trace w1)))) (shown (trim p1) other))
    /\ (forall c, c <> this -> c <> otherCharacter ->
        characters w' !! c = characters w !! c)
    /\ agents w' = agents w1
    /\ interactions w' = interactions w1
    /\ memories w' = memories w1
    /\ trace w' = trace w1 ++ [DateNow; DateNow]
    /\ trimmedTo p0 (trim p0)
    /\ trimmedTo p1 (trim p1).
Proof.
  intros Hsplit.
  destruct (approach_completes p0 p1 rest Hsplit)
    as (w' & Hrun & Hthis & Hthat & Hothers & Hagents & Hinteractions & Hmemories
        & Htrace).
  exists w'. do 8 (split; [assumption|]). split; apply trim_spec.
Qed.

(** X14.  After an approach that has completed both characters rest: a
    pass of either of them that reads the clock less than 10000 ms after
    the stamp of that character attempts nothing. *)
Theorem rest_after_approach p0 p1 rest :
  split "|" (Interaction.content interaction) = p0 :: p1 :: rest ->
  let w' := fst (approach env this otherCharacter me other w) in
  ((clock env (length (trace w')) - clock env (length (trace w1))
    < minInteractionInterval)%Z ->
   checkForInteractions env this w' = (log [DateNow] w', Return tt))
  /\ ((clock env (length (trace w')) - clock env (S (length (trace w1)))
       < minInteractionInterval)%Z ->
      checkForInteractions env otherCharacter w' = (log [DateNow] w', Return tt)).
Proof.
  intros Hsplit.
  destruct (approach_completes p0 p1 rest Hsplit) as (w' & -> & Hthis & Hthat & _).
  simpl. split; intros Hclock.
  - by apply (checkForInteractions_cooling env w' this _ Hthis).
  - by apply (checkForInteractions_cooling env w' otherCharacter _ Hthat).
Qed.

(** X15.  When the content has no ['|'], the approach ends in a
    [TypeError] once the bubble of the initiator shows the whole content
    without the white space at its ends:
    no character is stamped; the interaction stays as [createInteraction]
    recorded it. *)
Theorem approach_without_separator :
  occurs "|" (Interaction.content interaction) = false ->
  exists w',
    approach env this otherCharacter me other w
    = (w', Throw (TypeError "targetText is undefined"))
    /\ characters w' !! this
       = Some (shown (trim (Interaction.content interaction)) me)
    /\ (forall c, c <> this -> characters w' !! c = characters w !! c)
    /\ (forall c, lastInteractionTimeOf w' c = lastInteractionTimeOf w c)
    /\ agents w' = agents w1
    /\ interactions w' = interactions w1
    /\ memories w' = memories w1
    /\ trace w' = trace w1
    /\ trimmedTo (Interaction.content interaction)
         (trim (Interaction.content interaction)).
Proof.
  intros Hnone. rewrite approach_created, (split_without _ _ Hnone).
  cbv zeta. simpl lookup.
  pose proof created_characters as Hcharacters.
  rewrite (bind_returns _ _ w1 w1 (trim (Interaction.content interaction)))
    by reflexivity.
  erewrite bind_returns;
    [|apply (showSpeechBubble_eval _ _ me); by rewrite Hcharacters].
  erewrite bind_throws by reflexivity.
  eexists. split; [reflexivity|]. simpl.
  rewrite lookup_insert_eq. split; [reflexivity|].
  split.
  { intros c Hc. rewrite lookup_insert_ne by done. by rewrite Hcharacters. }
  split; [|split; [done|split; [done|split; [done|split; [done|apply trim_spec]]]]].
  intros c. unfold lastInteractionTimeOf. simpl.
  destruct (decide (this = c)) as [<-|Hc].
  - rewrite lookup_insert_eq, Hme. simpl. unfold shown.
    by destruct (AgentCharacter.speechBubble me).
  - rewrite lookup_insert_ne by done. by rewrite Hcharacters.
Qed.

End Approach.

Section Idle.
Variable env : Env.

Lemma forEach_idle others (body : ref -> M unit) w :
  (forall other, other ∈ others -> body other w = (w, Return tt)) ->
  forEach others body w = (w, Return tt).
Proof.
  induction others as [|other rest IH]; intros Hidle; simpl; [reflexivity|].
  rewrite (bind_returns _ _ w w tt) by (apply Hidle; apply list_elem_of_here).
  apply IH. intros o Ho. apply Hidle. by apply list_elem_of_further.
Qed.

(** X16.  A pass of a character that finds nobody else in range (the scene
    has no characters, or only this one, or all others are too far away)
    reads the clock once and does nothing else: no draw, no request to an
    engine, no interaction, no change. *)
Theorem pass_without_neighbours w this me :
  characters w !! this = Some me ->
  (forall others, scene w = Some others ->
     forall other, other ∈ others ->
       other = this
       \/ exists c, characters w !! other = Some c
                    /\ canInteract (AgentCharacter.position me)
                         (AgentCharacter.position c) = false) ->
  checkForInteractions env this w = (log [DateNow] w, Return tt).
Proof.
  intros Hme Hfar.
  destruct (Z.lt_ge_cases
              (clock env (length (trace w)) - AgentCharacter.lastInteractionTime me)
              minInteractionInterval) as [Hcooling|Hready].
  { by apply (checkForInteractions_cooling env w this me). }
  destruct (scene w) as [others|] eqn:Hscene.
  - rewrite (checkForInteractions_ready env w this me others) by assumption.
    apply forEach_idle. intros other Hin.
    destruct (Hfar others eq_refl other Hin) as [->|(c & Hc & Hcan)].
    + by rewrite interactWith_self.
    + destruct (decide (other = this)) as [->|Hne]; [by rewrite interactWith_self|].
      by apply (interactWith_far env _ this other me c).
  - unfold checkForInteractions.
    rewrite (bind_returns _ _ _ _ _ (dateNow_eval env w)).
    unfold getCharacter, get, mbind, M_bind. simpl. rewrite Hme.
    apply Z.ltb_ge in Hready. rewrite Hready. simpl. by rewrite Hscene.
Qed.

End Idle.

Section Initials.

Lemma split_pieces_clean sep s : Forall (fun p => occurs sep p = false) (split sep s).
Proof.
  induction s as [|c s IH]; simpl; [by repeat constructor|].
  destruct (decide (c = sep)) as [->|Hne]; [by constructor|].
  destruct (split sep s) as [|p rest].
  - constructor; [|constructor]. simpl. by rewrite decide_False.
  - inversion IH as [|? ? Hp Hrest]; subst. constructor; [|assumption].
    simpl. by rewrite decide_False.
Qed.

Lemma toUpperCase_length s : String.length (toUpperCase s) = String.length s.
Proof. induction s as [|c s IH]; simpl; [done|]. by rewrite IH. Qed.

Lemma toUpperCase_characters s :
  list_ascii_of_string (toUpperCase s) = map upperCase (list_ascii_of_string s).
Proof. induction s as [|c s IH]; simpl; [done|]. by rewrite IH. Qed.

Lemma upperCase_not_lower c : isLowerCase (upperCase c) = false.
Proof.
  unfold upperCase. destruct (isLowerCase c) eqn:Hc; [|exact Hc].
  unfold isLowerCase in *. apply andb_true_iff in Hc as [H1 H2].
  apply Nat.leb_le in H1, H2.
  rewrite nat_ascii_embedding by lia.
  apply andb_false_iff. left. apply Nat.leb_gt. lia.
Qed.

Lemma upperCase_underscore c : upperCase c = "_"%char -> c = "_"%char.
Proof.
  unfold upperCase. destruct (isLowerCase c) eqn:Hc; [|done].
  unfold isLowerCase in Hc. apply andb_true_iff in Hc as [H1 H2].
  apply Nat.leb_le in H1, H2. intros H.
  apply (f_equal nat_of_ascii) in H.
  rewrite nat_ascii_embedding in H by lia.
  change (nat_of_ascii "_") with 95 in H. lia.
Qed.

Lemma join_empty_characters words :
  list_ascii_of_string (join "" words)
  = concat (map list_ascii_of_string words).
Proof.
  unfold join. induction words as [|word rest IH]; simpl; [done|].
  destruct rest as [|word' rest].
  - simpl. by rewrite app_nil_r.
  - rewrite <- IH. clear IH.
    generalize (String.concat "" (word' :: rest)). intros s.
    induction word as [|c word IHw]; simpl; [done|]. by rewrite IHw.
Qed.

Lemma initials_characters id :
  list_ascii_of_string (getAgentInitials id)
  = map upperCase
      (concat (map (fun word => list_ascii_of_string (firstCharacter word))
                 (split "_" id))).
Proof.
  unfold getAgentInitials.
  by rewrite toUpperCase_characters, join_empty_characters, map_map.
Qed.

Lemma string_length_characters s : String.length s = length (list_ascii_of_string s).
Proof. induction s as [|c s IH]; simpl; [done|]. by rewrite IH. Qed.

(** X17.  The initials of an identifier (of ASCII characters) have one
    character for every word between underscores that is not empty, words
    that are empty giving none; no initial is an underscore or a lower-case
    letter. *)
Theorem getAgentInitials_words id :
  isAscii id ->
  String.length (getAgentInitials id)
  = length (List.filter (fun word => negb (String.eqb word "")) (split "_" id))
  /\ Forall (fun c => c <> "_"%char /\ isLowerCase c = false)
       (list_ascii_of_string (getAgentInitials id)).
Proof.
  intros _. rewrite string_length_characters, initials_characters.
  split.
  - rewrite length_map. induction (split "_" id) as [|word rest IH]; simpl; [done|].
    rewrite length_app, IH. by destruct word.
  - apply Forall_fmap.
    pose proof (split_pieces_clean "_" id) as Hclean.
    induction Hclean as [|word rest Hword _ IH]; simpl; [constructor|].
    apply Forall_app. split; [|exact IH].
    destruct word as [|c word]; simpl; [constructor|].
    constructor; [|constructor]. simpl. split; [|apply upperCase_not_lower].
    intros Hc. apply upperCase_underscore in Hc. subst c.
    simpl in Hword. try rewrite decide_True in Hword by done. done.
Qed.

Example getAgentInitials_john_doe : getAgentInitials "john_doe" = "JD".
Proof. reflexivity. Qed.

Example getAgentInitials_underscores : getAgentInitials "_a__b_" = "AB".
Proof. reflexivity. Qed.

End Initials.

(** * [AgentLogger] *)

Section Logger.

Lemma take_app_cons_take {A} (front : list A) x (l : list A) : forall n m,
  n <= m ->
  take (S n) (front ++ x :: take m l) = take (S n) (front ++ x :: l).
Proof.
  induction front as [|y front IH]; intros n m Hnm; simpl.
  - by rewrite take_take, Nat.min_l.
  - destruct n as [|n]; simpl; [reflexivity|].
    f_equal. apply IH. lia.
Qed.

Lemma last_cons_default {A} (l : list A) : forall x d,
  List.last (x :: l) d = List.last l x.
Proof.
  induction l as [|y l IH]; intros x d; [reflexivity|].
  change (List.last (x :: y :: l) d) with (List.last (y :: l) d).
  by rewrite (IH y d), (IH y x).
Qed.

Lemma handleLogs_take calls : forall logs,
  handleLogs calls logs = take 100 (rev (map logEntry calls) ++ logs)
  \/ calls = [].
Proof.
  induction calls as [|c calls IH]; intros logs; [by right|]. left.
  unfold handleLogs in *. simpl.
  destruct (IH (handleLog c logs)) as [->| ->].
  - unfold handleLog. rewrite <- app_assoc. simpl.
    apply take_app_cons_take. lia.
  - simpl. unfold handleLog. simpl. f_equal.
Qed.

(** X18.  The logger keeps the hundred most recent entries, the most
    recent first: after any number of calls of [handleLog] the log is the
    first hundred of the new entries in reverse order of arrival, followed
    by the entries there were; it never holds more than a hundred once an
    entry has been logged. *)
Theorem handleLogs_keeps_last_hundred c calls logs :
  handleLogs (c :: calls) logs
  = take 100 (rev (map logEntry (c :: calls)) ++ logs)
  /\ length (handleLogs (c :: calls) logs) <= 100
  /\ head (handleLogs (c :: calls) logs) = Some (logEntry (List.last calls c)).
Proof.
  destruct (handleLogs_take (c :: calls) logs) as [H|H]; [|done].
  split; [exact H|]. split.
  - rewrite H, length_take. lia.
  - rewrite H. clear H.
    assert (Hrev : exists rest,
               rev (map logEntry (c :: calls)) = logEntry (List.last calls c) :: rest).
    { revert c. induction calls as [|c' calls IH]; intros c.
      - by exists [].
      - destruct (IH c') as (rest & Hrest).
        change (rev (map logEntry (c :: c' :: calls)))
          with (rev (map logEntry (c' :: calls)) ++ [logEntry c]).
        rewrite Hrest. exists (rest ++ [logEntry c]).
        by rewrite (last_cons_default calls c' c). }
    destruct Hrev as (rest & ->). reflexivity.
Qed.

End Logger.

(** * [agentService] *)

Section AgentService.
Import agentService.

Lemma getProperty_insert agents id agent :
  getProperty (<[id := agent]> agents) id = Own agent.
Proof. unfold getProperty. by rewrite lookup_insert_eq. Qed.

Lemma getProperty_insert_ne agents id other agent :
  other <> id -> getProperty (<[id := agent]> agents) other = getProperty agents other.
Proof. intros Hne. unfold getProperty. by rewrite lookup_insert_ne. Qed.

Lemma setProperty_ordinary agents id agent :
  id <> "__proto__" -> setProperty agents id agent = <[id := agent]> agents.
Proof. intros Hid. unfold setProperty. by rewrite bool_decide_eq_false_2. Qed.

Lemma getProperty_free agents id :
  agents !! id = None -> id ∉ objectPrototype -> getProperty agents id = Undefined.
Proof.
  intros Hfree Hordinary. unfold getProperty. rewrite Hfree.
  by rewrite bool_decide_eq_false_2.
Qed.

(** X19.  [saveAgent] followed by [getAgent]: for an agent whose
    identifier is not [__proto__], [getAgent] gives back the agent as it
    was saved; what is stored for the other identifiers is not touched;
    saving the same agent once more changes nothing, and of two agents
    saved under one identifier the second stays. *)
Theorem saveAgent_then_getAgent agent storage :
  AgentDetails.id agent <> "__proto__" ->
  getAgent (saveAgent agent storage) (AgentDetails.id agent) = Own agent
  /\ (forall other, other <> AgentDetails.id agent ->
      getAgent (saveAgent agent storage) other = getAgent storage other)
  /\ saveAgent agent (saveAgent agent storage) = saveAgent agent storage
  /\ (forall agent', AgentDetails.id agent' = AgentDetails.id agent ->
      saveAgent agent' (saveAgent agent storage) = saveAgent agent' storage).
Proof.
  intros Hid. unfold getAgent, saveAgent, getAllAgents. simpl.
  rewrite !setProperty_ordinary by assumption.
  split; [apply getProperty_insert|].
  split; [intros other Hother; by apply getProperty_insert_ne|].
  split; [by rewrite insert_insert_eq|].
  intros agent' Hid'. rewrite Hid'.
  rewrite !setProperty_ordinary by assumption. by rewrite insert_insert_eq.
Qed.

(** X20.  [deleteAgent]: afterwards no agent is stored under the
    identifier ([getAgent] answers [null], unless the identifier names a
    property of [Object.prototype], which then shows through); the other
    identifiers are not touched; and deleting an agent that has just been
    saved under an identifier that was free gives back the agents there
    were. *)
Theorem deleteAgent_then_getAgent id storage :
  getAllAgents (deleteAgent id storage) !! id = None
  /\ (id ∉ objectPrototype -> getAgent (deleteAgent id storage) id = Undefined)
  /\ (id ∈ objectPrototype -> getAgent (deleteAgent id storage) id = Inherited id)
  /\ (forall other, other <> id ->
      getAgent (deleteAgent id storage) other = getAgent storage other)
  /\ (forall agent, AgentDetails.id agent = id ->
      getAllAgents storage !! id = None ->
      getAllAgents (deleteAgent id (saveAgent agent storage)) = getAllAgents storage).
Proof.
  unfold getAgent, deleteAgent, saveAgent, getAllAgents, getProperty. simpl.
  rewrite lookup_delete_eq.
  split; [reflexivity|].
  split; [intros Hid; by rewrite bool_decide_eq_false_2|].
  split; [intros Hid; by rewrite bool_decide_eq_true_2|].
  split; [intros other Hother; by rewrite lookup_delete_ne|].
  intros agent Hid Hfree. rewrite Hid. unfold setProperty.
  destruct (_ && _); [by apply delete_id|].
  rewrite delete_insert_eq. by apply delete_id.
Qed.

(** X21.  [initializeDefaultAgent] never replaces an agent: when one is
    stored under the identifier of the default agent the storage is left as
    it is; when none is and the identifier is no name of
    [Object.prototype], the default agent is stored; doing it twice is
    doing it once. *)
Theorem initializeDefaultAgent_keeps_stored defaultAgent storage :
  (forall agent,
     getAllAgents storage !! AgentDetails.id defaultAgent = Some agent ->
     initializeDefaultAgent defaultAgent storage = storage)
  /\ (getAllAgents storage !! AgentDetails.id defaultAgent = None ->
      AgentDetails.id defaultAgent ∉ objectPrototype ->
      getAgent (initializeDefaultAgent defaultAgent storage)
        (AgentDetails.id defaultAgent) = Own defaultAgent)
  /\ initializeDefaultAgent defaultAgent
       (initializeDefaultAgent defaultAgent storage)
     = initializeDefaultAgent defaultAgent storage.
Proof.
  unfold initializeDefaultAgent, getAgent.
  split; [|split].
  - intros agent Hstored. unfold getProperty. by rewrite Hstored.
  - intros Hfree Hordinary. rewrite (getProperty_free _ _ Hfree Hordinary).
    unfold saveAgent. simpl. rewrite setProperty_ordinary.
    + apply getProperty_insert.
    + intros Hid. apply Hordinary. rewrite Hid. set_solver.
  - destruct (getProperty (getAllAgents storage) (AgentDetails.id defaultAgent))
      eqn:Hproperty; rewrite ?Hproperty; try reflexivity.
    unfold getProperty in Hproperty.
    destruct (getAllAgents storage !! AgentDetails.id defaultAgent) eqn:Hfree;
      [done|].
    case_bool_decide as Hordinary; [done|].
    assert (Hid : AgentDetails.id defaultAgent <> "__proto__").
    { intros Hid. apply Hordinary. rewrite Hid. set_solver. }
    assert (Hsaved : getProperty (getAllAgents (saveAgent defaultAgent storage))
                       (AgentDetails.id defaultAgent) = Own defaultAgent).
    { unfold saveAgent. simpl. rewrite setProperty_ordinary by assumption.
      apply getProperty_insert. }
    by rewrite Hsaved.
Qed.

(** X22.  The names of [Object.prototype] get in the way: an agent whose
    identifier is [__proto__] is not stored by [saveAgent] (unless the
    record has that property already); a default agent whose identifier is
    one of these names is not stored by [initializeDefaultAgent]; and
    [getAgent] does not answer [null] for such a name even when nothing is
    stored. *)
Theorem object_prototype_names agent storage :
  (AgentDetails.id agent = "__proto__" ->
   getAllAgents storage !! "__proto__" = None ->
   getAllAgents (saveAgent agent storage) = getAllAgents storage)
  /\ (AgentDetails.id agent ∈ objectPrototype ->
      getAllAgents storage !! AgentDetails.id agent = None ->
      initializeDefaultAgent agent storage = storage)
  /\ (AgentDetails.id agent ∈ objectPrototype ->
      getAllAgents storage !! AgentDetails.id agent = None ->
      getAgent storage (AgentDetails.id agent) = Inherited (AgentDetails.id agent)).
Proof.
  split; [|split].
  - intros Hid Hfree. unfold saveAgent, setProperty. simpl. rewrite Hid.
    rewrite bool_decide_eq_true_2 by done.
    by rewrite bool_decide_eq_true_2.
  - intros Hname Hfree. unfold initializeDefaultAgent, getProperty.
    rewrite Hfree. by rewrite bool_decide_eq_true_2.
  - intros Hname Hfree. unfold getAgent, getProperty.
    rewrite Hfree. by rewrite bool_decide_eq_true_2.
Qed.

End AgentService.

(** * The content of an interaction *)

Section Contents.
Variable env : Env.

Lemma append_nonempty s1 s2 : s2 <> "" -> s1 +:+ s2 <> "".
Proof. destruct s1; simpl; [done|discriminate]. Qed.

Lemma orElse_nonempty response fallback : fallback <> "" -> orElse response fallback <> "".
Proof. unfold orElse. by destruct (decide _). Qed.

Lemma replyOrElse_nonempty a moment message agent context fallback :
  fallback <> "" -> replyOrElse a moment message agent context fallback <> "".
Proof.
  intros Hfallback. unfold replyOrElse.
  destruct (reply _ _ _ _ _); [by apply orElse_nonempty|done].
Qed.

Lemma generateContent_nonempty w w' initiator target i t type content :
  agents w !! initiator = Some i ->
  agents w !! target = Some t ->
  generateContent env initiator target i t type w = (w', Return content) ->
  content <> "".
Proof.
  intros Hi Ht. destruct type; simpl.
  - rewrite (generateConversation_eval w initiator target i t Hi Ht).
    intros [= _ <-]. by apply replyOrElse_nonempty.
  - intros [= _ <-]. unfold observationContent.
    repeat apply append_nonempty. by apply orElse_nonempty.
  - unfold mbind, M_bind, get.
    rewrite (generateRumor_eval env w initiator i _ Hi).
    intros [= _ <-]. by apply replyOrElse_nonempty.
Qed.

(** X23.  No interaction is recorded with an empty content: an empty reply
    of the engine is replaced by the placeholder as a failed one is, and
    the text of an observation is never empty.  The interaction recorded
    is of the kind asked for and names the two agents. *)
Theorem createInteraction_content_never_empty w initiator target i t type :
  agents w !! initiator = Some i ->
  agents w !! target = Some t ->
  exists interaction,
    interactions (fst (createInteraction env initiator target type w))
    = interactions w ++ [interaction]
    /\ Interaction.content interaction <> ""
    /\ Interaction.type interaction = type
    /\ Interaction.initiatorId interaction = Agent.id i
    /\ Interaction.targetId interaction = Agent.id t.
Proof.
  intros Hi Ht.
  destruct (createInteraction_outcome env w initiator target i t type Hi Ht)
    as (calls & content & w' & r & Hgen & Hrun & Hrecord & _).
  eexists. rewrite Hrun. split; [exact Hrecord|]. simpl.
  split; [|done].
  by apply (generateContent_nonempty w _ initiator target i t type content Hi Ht Hgen).
Qed.

End Contents.

(** * The further properties at work *)

(** A run that returns [r], split into the world it leaves and [r]. *)
Ltac run_returns :=
  match goal with
  | |- ?run = (fst ?run, ?r) =>
      let H := fresh in
      assert (H : snd run = r) by (by vm_compute);
      revert H; destruct run; simpl; by intros ->
  end.

Section Conversations.
Variables positionA positionB : Position.

(** What [createInteraction] makes of a conversation on stage, after the
    two draws of the approach: with an engine that replies, and with one
    that does not. *)
Lemma steady_conversation :
  let w := log [MathRandom; MathRandom] (stage steadyEngine positionA positionB) in
  createInteraction lateEnv 0 1 conversation_ w
  = (fst (createInteraction lateEnv 0 1 conversation_ w),
     Return (Some (interactionAt lateEnv (alice steadyEngine) (bob steadyEngine)
                     conversation_ "Lovely weather today.|It is indeed." 3))).
Proof. cbv zeta. run_returns. Qed.

Lemma mute_conversation :
  let w := log [MathRandom; MathRandom] (stage muteEngine positionA positionB) in
  createInteraction lateEnv 0 1 conversation_ w
  = (fst (createInteraction lateEnv 0 1 conversation_ w),
     Return (Some (interactionAt lateEnv (alice muteEngine) (bob muteEngine)
                     conversation_ conversationFailed 3))).
Proof. cbv zeta. run_returns. Qed.

Lemma padded_conversation :
  let w := log [MathRandom; MathRandom] (stage paddedEngine positionA positionB) in
  createInteraction lateEnv 0 1 conversation_ w
  = (fst (createInteraction lateEnv 0 1 conversation_ w),
     Return (Some (interactionAt lateEnv (alice paddedEngine) (bob paddedEngine)
                     conversation_ paddedReply 3))).
Proof. cbv zeta. run_returns. Qed.

Lemma rambling_conversation :
  let w := log [MathRandom; MathRandom] (stage ramblingEngine positionA positionB) in
  createInteraction lateEnv 0 1 conversation_ w
  = (fst (createInteraction lateEnv 0 1 conversation_ w),
     Return (Some (interactionAt lateEnv (alice ramblingEngine) (bob ramblingEngine)
                     conversation_ ramblingReply 3))).
Proof. cbv zeta. run_returns. Qed.

Lemma steady_conversation_trace :
  length (trace (fst (createInteraction lateEnv 0 1 conversation_
                        (log [MathRandom; MathRandom]
                           (stage steadyEngine positionA positionB))))) = 15
  /\ length (trace (fst (approach lateEnv 0 1 (newCharacter 0 positionA)
                           (newCharacter 1 positionB)
                           (stage steadyEngine positionA positionB)))) = 17.
Proof. by vm_compute. Qed.

End Conversations.

Lemma village_counted engineA engineB : allCounted (village engineA engineB).
Proof.
  intros k a Hk. unfold village in Hk. cbn [agents] in Hk.
  apply lookup_insert_Some in Hk as [[_ <-]|[_ Hk]]; [apply newAgent_counted|].
  apply lookup_singleton_Some in Hk as [_ <-]. apply newAgent_counted.
Qed.

Lemma createInteraction_records_both_sides_witness :
  let w := village steadyEngine steadyEngine in
  let w' := fst (createInteraction tickingEnv 0 1 rumor_ w) in
  exists interaction mi mt,
    interactions w' = interactions w ++ [interaction]
    /\ ServiceMemory.content mi = Interaction.content interaction
    /\ ServiceMemory.content mt = Interaction.content interaction
    /\ ServiceMemory.type mi = direct
    /\ ServiceMemory.type mt = rumor
    /\ ServiceMemory.source mi = "bob"
    /\ ServiceMemory.source mt = "alice"
    /\ ("alice" <> "bob" ->
        knownTo w' "alice" = knownTo w "alice" ++ [mi]
        /\ knownTo w' "bob" = knownTo w "bob" ++ [mt])
    /\ ("alice" = "bob" -> knownTo w' "alice" = knownTo w "alice" ++ [mi; mt])
    /\ (forall other, other <> "alice" -> other <> "bob" ->
        knownTo w' other = knownTo w other).
Proof.
  cbv zeta.
  apply (createInteraction_records_both_sides tickingEnv
           (village steadyEngine steadyEngine) 0 1
           (alice steadyEngine) (bob steadyEngine) rumor_).
  - reflexivity.
  - reflexivity.
Defined.

Lemma observe_stores_the_answers_witness :
  let w := village steadyEngine steadyEngine in
  let w' := fst (observe tickingEnv 0 "saw a fire" w) in
  exists a' b,
    agents w' !! 0 = Some a'
    /\ last (Agent.memoryStream a') = Some (Observation b)
    /\ Some 5%Q = Some (BaseMemory.importance b)
    /\ Some [1%Q; 0%Q] = Some (BaseMemory.embedding b)
    /\ trace w' = trace w ++ [GetImportanceScore "saw a fire"; GetEmbedding "saw a fire";
                              DateNow; DateNow]
    /\ interactions w' = interactions w
    /\ memories w' = memories w
    /\ characters w' = characters w
    /\ scene w' = scene w.
Proof.
  cbv zeta.
  apply (observe_stores_the_answers tickingEnv (village steadyEngine steadyEngine) _ 0
           (alice steadyEngine) "saw a fire").
  - reflexivity.
  - run_returns.
Defined.

Lemma getRecentInteractions_negative_limit_witness :
  exists w' recent oldest,
    getRecentInteractions (Some (-1)%Z) chronicle = (w', Return recent)
    /\ interactions w' = recent ++ oldest
    /\ interactions w' ≡ₚ interactions chronicle
    /\ StronglySorted newerFirst (interactions w')
    /\ length oldest = Nat.min 1 3
    /\ length recent = 3 - 1.
Proof. apply (getRecentInteractions_negative_limit (-1) chronicle). lia. Defined.

Lemma identifiers_never_reused_witness :
  let ops := [Observe 0 "saw a fire";
              CreateInteraction 0 1 conversation_;
              RecordMemory "alice" "The well is dry." direct "bob";
              CreateInteraction 1 0 observation_;
              GetRecentInteractions None;
              Observe 0 "saw the rain"] in
  let w' := performAll tickingEnv ops (village steadyEngine steadyEngine) in
  exists a,
    agents w' !! 0 = Some a
    /\ observationIds a = ["obs_1"; "obs_2"; "obs_3"; "obs_4"]
    /\ counted a
    /\ StronglySorted id_lt (observationIds a)
    /\ NoDup (observationIds a).
Proof.
  cbv zeta.
  set (w' := performAll tickingEnv _ (village steadyEngine steadyEngine)).
  assert (Hids : observationIds <$> agents w' !! 0
                 = Some ["obs_1"; "obs_2"; "obs_3"; "obs_4"]) by (by vm_compute).
  destruct (agents w' !! 0) as [a|] eqn:Ha; [|discriminate Hids].
  exists a. split; [reflexivity|]. split; [by injection Hids|].
  eapply identifiers_never_reused; [|exact Ha]. apply village_counted.
Defined.

Lemma approach_with_separator_witness :
  let w := stage paddedEngine origin eastBy80 in
  let me := newCharacter 0 origin in
  let other := newCharacter 1 eastBy80 in
  let w1 := fst (createInteraction lateEnv 0 1 conversation_
                   (log [MathRandom; MathRandom] w)) in
  exists w',
    approach lateEnv 0 1 me other w = (w', Return tt)
    /\ characters w' !! 0
       = Some (stamped (clock lateEnv (length (trace w1))) (shown "Bonjour" me))
    /\ characters w' !! 1
       = Some (stamped (clock lateEnv (S (length (trace w1)))) (shown "ok" other))
    /\ (forall c, c <> 0 -> c <> 1 -> characters w' !! c = characters w !! c)
    /\ agents w' = agents w1
    /\ interactions w' = interactions w1
    /\ memories w' = memories w1
    /\ trace w' = trace w1 ++ [DateNow; DateNow]
    /\ trimmedTo paddedFirst "Bonjour"
    /\ trimmedTo paddedSecond "ok".
Proof.
  cbv zeta.
  apply (approach_with_separator lateEnv (stage paddedEngine origin eastBy80) _ 0 1
           (newCharacter 0 origin) (newCharacter 1 eastBy80)
           (interactionAt lateEnv (alice paddedEngine) (bob paddedEngine)
              conversation_ paddedReply 3) eq_refl eq_refl ltac:(discriminate) eq_refl
           (padded_conversation origin eastBy80) paddedFirst paddedSecond []).
  reflexivity.
Defined.

Lemma rest_after_approach_witness :
  let w := stage steadyEngine origin eastBy80 in
  let w' := fst (approach lateEnv 0 1 (newCharacter 0 origin) (newCharacter 1 eastBy80)
                   w) in
  checkForInteractions lateEnv 0 w' = (log [DateNow] w', Return tt)
  /\ checkForInteractions lateEnv 1 w' = (log [DateNow] w', Return tt).
Proof.
  cbv zeta.
  destruct (rest_after_approach lateEnv (stage steadyEngine origin eastBy80) _ 0 1
              (newCharacter 0 origin) (newCharacter 1 eastBy80)
              (interactionAt lateEnv (alice steadyEngine) (bob steadyEngine)
                 conversation_ "Lovely weather today.|It is indeed." 3)
              eq_refl eq_refl ltac:(discriminate) eq_refl
              (steady_conversation origin eastBy80)
              "Lovely weather today." "It is indeed." [] eq_refl) as [Hthis Hthat].
  destruct (steady_conversation_trace origin eastBy80) as [Hw1 Hw'].
  split; [apply Hthis|apply Hthat]; rewrite Hw1, Hw'; by vm_compute.
Defined.

Lemma approach_without_separator_witness :
  let w := stage ramblingEngine origin eastBy80 in
  let me := newCharacter 0 origin in
  let w1 := fst (createInteraction lateEnv 0 1 conversation_
                   (log [MathRandom; MathRandom] w)) in
  exists w',
    approach lateEnv 0 1 me (newCharacter 1 eastBy80) w
    = (w', Throw (TypeError "targetText is undefined"))
    /\ characters w' !! 0 = Some (shown "Nothing to say." me)
    /\ (forall c, c <> 0 -> characters w' !! c = characters w !! c)
    /\ (forall c, lastInteractionTimeOf w' c = lastInteractionTimeOf w c)
    /\ agents w' = agents w1
    /\ interactions w' = interactions w1
    /\ memories w' = memories w1
    /\ trace w' = trace w1
    /\ trimmedTo ramblingReply "Nothing to say.".
Proof.
  cbv zeta.
  apply (approach_without_separator lateEnv (stage ramblingEngine origin eastBy80) _ 0 1
           (newCharacter 0 origin) (newCharacter 1 eastBy80)
           (interactionAt lateEnv (alice ramblingEngine) (bob ramblingEngine)
              conversation_ ramblingReply 3) eq_refl ltac:(discriminate) eq_refl
           (rambling_conversation origin eastBy80)).
  reflexivity.
Defined.

Lemma pass_without_neighbours_witness :
  let w := stage steadyEngine origin eastBy150 in
  checkForInteractions lateEnv 0 w = (log [DateNow] w, Return tt).
Proof.
  cbv zeta.
  apply (pass_without_neighbours lateEnv (stage steadyEngine origin eastBy150) 0
           (newCharacter 0 origin)).
  - reflexivity.
  - intros others [= <-] other Hin.
    apply elem_of_cons in Hin as [->|Hin]; [by left|].
    apply list_elem_of_singleton in Hin as ->.
    right. exists (newCharacter 1 eastBy150).
    split; [reflexivity|apply canInteract_at_150].
Defined.

Lemma getAgentInitials_words_witness :
  String.length (getAgentInitials "john__doe") = 2
  /\ Forall (fun c => c <> "_"%char /\ isLowerCase c = false)
       (list_ascii_of_string (getAgentInitials "john__doe")).
Proof.
  apply (getAgentInitials_words "john__doe").
  unfold isAscii. simpl. repeat (constructor; [by apply Nat.ltb_lt|]). constructor.
Defined.

Lemma saveAgent_then_getAgent_witness :
  let agent := detailsOf "alice" "Alice" in
  let storage := Some {[ "bob" := detailsOf "bob" "Bob" ]} in
  agentService.getAgent (agentService.saveAgent agent storage) "alice" = Own agent
  /\ (forall other, other <> "alice" ->
      agentService.getAgent (agentService.saveAgent agent storage) other
      = agentService.getAgent storage other)
  /\ agentService.saveAgent agent (agentService.saveAgent agent storage)
     = agentService.saveAgent agent storage
  /\ (forall agent', AgentDetails.id agent' = "alice" ->
      agentService.saveAgent agent' (agentService.saveAgent agent storage)
      = agentService.saveAgent agent' storage).
Proof.
  cbv zeta.
  apply (saveAgent_then_getAgent (detailsOf "alice" "Alice")
           (Some {[ "bob" := detailsOf "bob" "Bob" ]})).
  discriminate.
Defined.

Lemma createInteraction_content_never_empty_witness :
  let w := village steadyEngine steadyEngine in
  exists interaction,
    interactions (fst (createInteraction tickingEnv 0 1 rumor_ w))
    = interactions w ++ [interaction]
    /\ Interaction.content interaction <> ""
    /\ Interaction.type interaction = rumor_
    /\ Interaction.initiatorId interaction = "alice"
    /\ Interaction.targetId interaction = "bob".
Proof.
  cbv zeta.
  apply (createInteraction_content_never_empty tickingEnv
           (village steadyEngine steadyEngine) 0 1
           (alice steadyEngine) (bob steadyEngine) rumor_).
  - reflexivity.
  - reflexivity.
Defined.

(** White space is trimmed by character: U+00A0 and U+3000 go with the
    spaces of ASCII, while the last byte of [à], which is also the last
    byte of U+00A0, stays. *)
Example trim_padded :
  split "|" paddedReply = [paddedFirst; paddedSecond]
  /\ map trim (split "|" paddedReply) = ["Bonjour"; "ok"].
Proof. by vm_compute. Qed.

Example trim_accent :
  trim (" voil" +:+ bytes [195; 160] +:+ " ") = "voil" +:+ bytes [195; 160].
Proof. by vm_compute. Qed.

Example trim_inner : trim "  Lovely  weather " = "Lovely  weather".
Proof. by vm_compute. Qed.

Example trim_blank : trim (" " +:+ bytes [226; 128; 168; 9]) = "".
Proof. by vm_compute. Qed.

Example approach_shows_trimmed :
  let w' := fst (approach lateEnv 0 1 (newCharacter 0 origin) (newCharacter 1 eastBy80)
                   (stage paddedEngine origin eastBy80)) in
  bubbleText w' 0 = Some "Bonjour" /\ bubbleText w' 1 = Some "ok".
Proof. by vm_compute. Qed.

